(** * Asset manifest generator (src/commands/assets.ts): shallow embedding

    The functions of [src/commands/assets.ts] are embedded as Rocq functions
    under their own names, and the properties the design document states
    about them are proved or refuted on the embedding.  The file has three
    parts: the embedding, the predicates the statements use, the proofs.

    Strings.  A JavaScript string is a sequence of code units; here a string
    is a [list ascii], read as the code units 0..255.  The regular
    expressions of the source carry no [u] flag, so they work on single code
    units and are embedded as list functions.  [toLowerCase]/[toUpperCase]
    are the ASCII case maps; code units from 128 on are carried through
    unchanged (the universally quantified results below do not depend on how
    they are case-mapped: [toKebabCase], [toSnakeCase] and [toCamel] strip
    every code unit outside the ASCII letters and digits after mapping).

    Platform.  [path] is [path.posix]: the separator is [/].  [extname],
    [basename] and [dirname] follow the loops of Node's lib/path.js with the
    same local variables; [normalize] and [join] follow their documented
    behaviour.  The module is an ES module, hence strict code.

    Effects.  A call returns, throws or leaves the model ([outcome]).  Sets,
    maps, the tree and the file system are passed and returned; the tree is
    a tree of own properties in enumeration order, the file system a map
    from paths to what exists there. *)

From Stdlib Require Import ZArith List Ascii String Lia Bool.
From stdpp Require Import base decidable option list gmap sets strings pretty sorting.

Local Open Scope Z_scope.
Local Set Warnings "-register-all,-clear-no-such-hyp".

(** * Part I: the embedding *)

(** ** Strings *)

Definition str : Type := list ascii.

(** String literal. *)
Definition lit (s : string) : str := list_ascii_of_string s.

Definition code (c : ascii) : N := N_of_ascii c.

Definition in_range (lo hi : N) (c : ascii) : bool :=
  ((lo <=? code c) && (code c <=? hi))%N.

Definition is_lower (c : ascii) : bool := in_range 97 122 c.   (* [a-z] *)
Definition is_upper (c : ascii) : bool := in_range 65 90 c.    (* [A-Z] *)
Definition is_digit (c : ascii) : bool := in_range 48 57 c.    (* [0-9] *)

Definition ch_dash : ascii := "-"%char.
Definition ch_underscore : ascii := "_"%char.
Definition ch_dot : ascii := "."%char.
Definition ch_slash : ascii := "/"%char.

Definition is_char (a c : ascii) : bool := bool_decide (c = a).

(** [\s] on the code units 0..255: TAB, LF, VT, FF, CR, SPACE, NBSP. *)
Definition is_space (c : ascii) : bool :=
  in_range 9 13 c || is_char " "%char c || (code c =? 160)%N.

Definition toLowerCase_char (c : ascii) : ascii :=
  if is_upper c then ascii_of_N (code c + 32) else c.

Definition toUpperCase_char (c : ascii) : ascii :=
  if is_lower c then ascii_of_N (code c - 32) else c.

Definition toLowerCase (s : str) : str := map toLowerCase_char s.

(** [s.slice(a, b)] for [0 <= a] and [0 <= b]. *)
Definition slice (s : str) (a b : Z) : str :=
  take (Z.to_nat b - Z.to_nat a)%nat (drop (Z.to_nat a) s).

Definition len (s : str) : Z := Z.of_nat (length s).

(** ** Regular-expression replacements used by the name normalizer *)

(** [s.replace(/([a-z])([A-Z])/g, "$1<sep>$2")]: matches do not overlap, the
    search resumes after the upper-case letter. *)
Fixpoint split_case_boundary (sep : ascii) (s : str) : str :=
  match s with
  | a :: (b :: rest) as tl =>
      if is_lower a && is_upper b
      then a :: sep :: b :: split_case_boundary sep rest
      else a :: split_case_boundary sep tl
  | _ => s
  end.

(** [s.replace(/[cls]+/g, "<sep>")]: every maximal run of characters of the
    class becomes one separator.  [inrun] tells that the previous character
    belonged to the run being replaced. *)
Fixpoint replace_runs_go (cls : ascii → bool) (sep : ascii) (inrun : bool)
    (s : str) : str :=
  match s with
  | [] => []
  | c :: rest =>
      if cls c
      then (if inrun then replace_runs_go cls sep true rest
            else sep :: replace_runs_go cls sep true rest)
      else c :: replace_runs_go cls sep false rest
  end.

Definition replace_runs (cls : ascii → bool) (sep : ascii) (s : str) : str :=
  replace_runs_go cls sep false s.

(** [s.replace(/[^cls]/g, '')] *)
Definition strip_outside (cls : ascii → bool) (s : str) : str :=
  List.filter cls s.

(** [s.replace(/^<sep>|<sep>$/g, '')]: the first alternative can match only at
    index 0, the second only at the last index; the two matches do not
    overlap, so a one-character string loses its only separator once. *)
Definition strip_leading (sep : ascii) (s : str) : str :=
  match s with
  | c :: rest => if is_char sep c then rest else s
  | [] => []
  end.

Fixpoint strip_trailing (sep : ascii) (s : str) : str :=
  match s with
  | [] => []
  | [c] => if is_char sep c then [] else [c]
  | c :: rest => c :: strip_trailing sep rest
  end.

Definition trim_sep (sep : ascii) (s : str) : str :=
  strip_trailing sep (strip_leading sep s).

(** ** Name normalizer *)

Definition is_alnum (c : ascii) : bool := is_lower c || is_upper c || is_digit c.

(** [[_\s\-\.]] *)
Definition is_camel_sep (c : ascii) : bool :=
  is_char ch_underscore c || is_space c || is_char ch_dash c || is_char ch_dot c.

(** [str.replace(/[_\s\-\.]+(.)?/g, (_, c) => (c ? c.toUpperCase() : ''))].
    The run of separators is maximal, so the character after it (when there is
    one) is not a separator, hence not a line terminator, and [(.)?] takes it.
    [inrun] tells that a run of separators has just been consumed. *)
Fixpoint camel_runs (inrun : bool) (s : str) : str :=
  match s with
  | [] => []
  | c :: rest =>
      if is_camel_sep c then camel_runs true rest
      else (if inrun then toUpperCase_char c else c) :: camel_runs false rest
  end.

(** [.replace(/^[A-Z]/, (m) => m.toLowerCase())] *)
Definition lower_first (s : str) : str :=
  match s with
  | c :: rest => if is_upper c then toLowerCase_char c :: rest else s
  | [] => []
  end.

Definition toCamel (s : str) : str :=
  strip_outside is_alnum (lower_first (camel_runs false s)).

(** [[\s_\.]] and [[a-z0-9\-]] *)
Definition is_kebab_sep (c : ascii) : bool :=
  is_space c || is_char ch_underscore c || is_char ch_dot c.
Definition is_kebab_char (c : ascii) : bool :=
  is_lower c || is_digit c || is_char ch_dash c.

Definition toKebabCase (s : str) : str :=
  trim_sep ch_dash
    (replace_runs (is_char ch_dash) ch_dash
       (strip_outside is_kebab_char
          (toLowerCase
             (replace_runs is_kebab_sep ch_dash
                (split_case_boundary ch_dash s))))).

(** [[\s\-\.]] and [[a-z0-9_]] *)
Definition is_snake_sep (c : ascii) : bool :=
  is_space c || is_char ch_dash c || is_char ch_dot c.
Definition is_snake_char (c : ascii) : bool :=
  is_lower c || is_digit c || is_char ch_underscore c.

Definition toSnakeCase (s : str) : str :=
  trim_sep ch_underscore
    (replace_runs (is_char ch_underscore) ch_underscore
       (strip_outside is_snake_char
          (toLowerCase
             (replace_runs is_snake_sep ch_underscore
                (split_case_boundary ch_underscore s))))).

(** [s.split(sep)] for a one-character separator; [cur] is the piece being
    read, reversed. *)
Fixpoint split_on_go (sep : ascii) (cur : str) (s : str) : list str :=
  match s with
  | [] => [rev cur]
  | c :: rest =>
      if is_char sep c then rev cur :: split_on_go sep [] rest
      else split_on_go sep (c :: cur) rest
  end.

Definition split_on (sep : ascii) (s : str) : list str := split_on_go sep [] s.

(** [l.join(sep)] *)
Fixpoint join_with (sep : str) (l : list str) : str :=
  match l with
  | [] => []
  | [a] => a
  | a :: rest => a ++ sep ++ join_with sep rest
  end.

(** ** path.posix *)

Module path.

(** Local variables of [extname]. *)
Record ext_state : Type := mkExt {
  startDot : Z;
  startPart : Z;
  end_ : Z;
  matchedSlash : bool;
  preDotState : Z
}.

Definition ext_init : ext_state := mkExt (-1) 0 (-1) true 0.

(** The loop [for (let i = path.length - 1; i >= 0; --i)] of [extname];
    [rs] holds the characters at the indices [i], [i - 1], ..., [0]. *)
Fixpoint extname_loop (rs : str) (i : Z) (st : ext_state) : ext_state :=
  match rs with
  | [] => st
  | c :: rs' =>
      if is_char ch_slash c then
        if negb (matchedSlash st)
        then mkExt (startDot st) (i + 1) (end_ st) (matchedSlash st)
               (preDotState st)                                   (* break *)
        else extname_loop rs' (i - 1) st                          (* continue *)
      else
        let st1 :=
          if end_ st =? -1
          then mkExt (startDot st) (startPart st) (i + 1) false (preDotState st)
          else st in
        let st2 :=
          if is_char ch_dot c then
            if startDot st1 =? -1
            then mkExt i (startPart st1) (end_ st1) (matchedSlash st1)
                   (preDotState st1)
            else if negb (preDotState st1 =? 1)
            then mkExt (startDot st1) (startPart st1) (end_ st1)
                   (matchedSlash st1) 1
            else st1
          else if negb (startDot st1 =? -1)
          then mkExt (startDot st1) (startPart st1) (end_ st1)
                 (matchedSlash st1) (-1)
          else st1 in
        extname_loop rs' (i - 1) st2
  end.

Definition extname (p : str) : str :=
  let st := extname_loop (rev p) (len p - 1) ext_init in
  if (startDot st =? -1) || (end_ st =? -1) || (preDotState st =? 0)
     || ((preDotState st =? 1) && (startDot st =? end_ st - 1)
         && (startDot st =? startPart st + 1))
  then []
  else slice p (startDot st) (end_ st).

(** Local variables of [basename]. *)
Record base_state : Type := mkBase {
  b_start : Z;
  b_end : Z;
  b_matchedSlash : bool;
  extIdx : Z;
  firstNonSlashEnd : Z
}.

(** The loop of [basename] taken when a non-empty suffix no longer than the
    path is given. *)
Fixpoint basename_suffix_loop (suffix : str) (rs : str) (i : Z)
    (st : base_state) : base_state :=
  match rs with
  | [] => st
  | c :: rs' =>
      if is_char ch_slash c then
        if negb (b_matchedSlash st)
        then mkBase (i + 1) (b_end st) (b_matchedSlash st) (extIdx st)
               (firstNonSlashEnd st)                               (* break *)
        else basename_suffix_loop suffix rs' (i - 1) st
      else
        let st1 :=
          if firstNonSlashEnd st =? -1
          then mkBase (b_start st) (b_end st) false (extIdx st) (i + 1)
          else st in
        let st2 :=
          if 0 <=? extIdx st1 then
            if bool_decide (suffix !! Z.to_nat (extIdx st1) = Some c) then
              if extIdx st1 - 1 =? -1
              then mkBase (b_start st1) i (b_matchedSlash st1)
                     (extIdx st1 - 1) (firstNonSlashEnd st1)
              else mkBase (b_start st1) (b_end st1) (b_matchedSlash st1)
                     (extIdx st1 - 1) (firstNonSlashEnd st1)
            else mkBase (b_start st1) (firstNonSlashEnd st1)
                   (b_matchedSlash st1) (-1) (firstNonSlashEnd st1)
          else st1 in
        basename_suffix_loop suffix rs' (i - 1) st2
  end.

(** The loop of [basename] without a usable suffix; only [start], [end] and
    [matchedSlash] are live. *)
Fixpoint basename_plain_loop (rs : str) (i : Z) (st : base_state) : base_state :=
  match rs with
  | [] => st
  | c :: rs' =>
      if is_char ch_slash c then
        if negb (b_matchedSlash st)
        then mkBase (i + 1) (b_end st) (b_matchedSlash st) (extIdx st)
               (firstNonSlashEnd st)                               (* break *)
        else basename_plain_loop rs' (i - 1) st
      else if b_end st =? -1
      then basename_plain_loop rs' (i - 1)
             (mkBase (b_start st) (i + 1) false (extIdx st) (firstNonSlashEnd st))
      else basename_plain_loop rs' (i - 1) st
  end.

(** [path.basename(p, suffix)]; [None] is a call without the second
    argument. *)
Definition basename (p : str) (suffix : option str) : str :=
  let use_suffix :=
    match suffix with
    | Some sfx => (0 <? len sfx) && (len sfx <=? len p)
    | None => false
    end in
  if use_suffix then
    let sfx := default [] suffix in
    if bool_decide (sfx = p) then []
    else
      let st := basename_suffix_loop sfx (rev p) (len p - 1)
                  (mkBase 0 (-1) true (len sfx - 1) (-1)) in
      let e :=
        if b_start st =? b_end st then firstNonSlashEnd st
        else if b_end st =? -1 then len p
        else b_end st in
      slice p (b_start st) e
  else
    let st := basename_plain_loop (rev p) (len p - 1)
                (mkBase 0 (-1) true (-1) (-1)) in
    if b_end st =? -1 then [] else slice p (b_start st) (b_end st).

(** The loop [for (let i = path.length - 1; i >= 1; --i)] of [dirname]:
    the result is the final value of [end]; [rs] holds the characters at the
    indices [i], ..., [1]. *)
Fixpoint dirname_loop (rs : str) (i : Z) (matched : bool) : Z :=
  match rs with
  | [] => -1
  | c :: rs' =>
      if is_char ch_slash c then
        if negb matched then i                                    (* break *)
        else dirname_loop rs' (i - 1) matched
      else dirname_loop rs' (i - 1) false
  end.

Definition dirname (p : str) : str :=
  match p with
  | [] => lit "."
  | c0 :: tl =>
      let hasRoot := is_char ch_slash c0 in
      let e := dirname_loop (rev tl) (len p - 1) true in
      if e =? -1 then (if hasRoot then lit "/" else lit ".")
      else if hasRoot && (e =? 1) then lit "//"
      else slice p 0 e
  end.

(** [normalizeString]: the segments of the path with empty segments and [.]
    dropped and [..] resolved against the segment before it; [res] is the
    result so far, reversed. *)
Fixpoint normalize_segments (allowAboveRoot : bool) (res : list str)
    (segs : list str) : list str :=
  match segs with
  | [] => rev res
  | seg :: rest =>
      if bool_decide (seg = []) || bool_decide (seg = lit ".")
      then normalize_segments allowAboveRoot res rest
      else if bool_decide (seg = lit "..") then
        match res with
        | top :: res' =>
            if bool_decide (top = lit "..")
            then normalize_segments allowAboveRoot
                   (if allowAboveRoot then seg :: res else res) rest
            else normalize_segments allowAboveRoot res' rest
        | [] =>
            normalize_segments allowAboveRoot
              (if allowAboveRoot then [seg] else []) rest
        end
      else normalize_segments allowAboveRoot (seg :: res) rest
  end.

Definition normalize (p : str) : str :=
  match p with
  | [] => lit "."
  | c0 :: _ =>
      let isAbsolute := is_char ch_slash c0 in
      let trailingSeparator :=
        match last p with Some c => is_char ch_slash c | None => false end in
      let body :=
        join_with [ch_slash]
          (normalize_segments (negb isAbsolute) [] (split_on ch_slash p)) in
      match body with
      | [] => if isAbsolute then lit "/"
              else if trailingSeparator then lit "./" else lit "."
      | _ => (if isAbsolute then [ch_slash] else [])
             ++ body ++ (if trailingSeparator then [ch_slash] else [])
      end
  end.

(** [path.join(a, b)] *)
Definition join (a b : str) : str :=
  match List.filter (λ arg : str, negb (bool_decide (arg = []))) [a; b] with
  | [] => lit "."
  | args => normalize (join_with [ch_slash] args)
  end.

End path.

(** ** convertImageName *)

Inductive NameCase : Type := KebabCase | SnakeCase | AnyCase.

Definition convertImageName (fileName : str) (nameCase : NameCase) : str :=
  match nameCase with
  | AnyCase => fileName
  | KebabCase =>
      let ext := path.extname fileName in
      let nameWithoutExt := path.basename fileName (Some ext) in
      toKebabCase nameWithoutExt ++ ext
  | SnakeCase =>
      let ext := path.extname fileName in
      let nameWithoutExt := path.basename fileName (Some ext) in
      toSnakeCase nameWithoutExt ++ ext
  end.


(** ** Results of effectful code *)

(** What a call can throw. *)
Inductive exn : Type :=
  | TypeError                 (* assignment to a property of a primitive *)
  | Error (message : str)     (* [throw new Error(message)] *)
  | FsError (errno : str).    (* a rejected [fs] call *)

(** A call returns, throws, or steps outside what is modelled (inherited
    properties of the built-in prototypes, arrays used as tree nodes,
    directories as rename sources). *)
Inductive outcome (A : Type) : Type :=
  | Ok (a : A)
  | Throw (e : exn)
  | Unmodelled.
Arguments Ok {A} a.
Arguments Throw {A} e.
Arguments Unmodelled {A}.

Definition bind_outcome {A B : Type} (m : outcome A) (k : A → outcome B) : outcome B :=
  match m with
  | Ok a => k a
  | Throw e => Throw e
  | Unmodelled => Unmodelled
  end.

Global Instance outcome_bind : MBind outcome :=
  λ A B k m, bind_outcome m k.
Global Instance outcome_ret : MRet outcome := λ A a, Ok a.

(** ** Identifier allocator *)

(** [[a-zA-Z0-9_]] and [[a-zA-Z_]] *)
Definition is_ident_char (c : ascii) : bool :=
  is_lower c || is_upper c || is_digit c || is_char ch_underscore c.
Definition is_ident_start (c : ascii) : bool :=
  is_lower c || is_upper c || is_char ch_underscore c.

Definition toValidIdentifier (s : str) : str :=
  let cleaned := map (λ c, if is_ident_char c then c else ch_underscore) s in
  match cleaned with
  | c :: _ => if is_ident_start c then cleaned else ch_underscore :: cleaned
  | [] => ch_underscore :: cleaned
  end.

(** [`${i}`] for a non-negative integer. *)
Definition decimal (i : N) : str := lit (pretty i).

(** The loop [while (used.has(n)) n = `${name}${i++}`].  [fuel] bounds the
    number of iterations; [ensureUnique] passes the size of [used], which is
    always enough ([ensureUnique_loop_total] below). *)
Fixpoint ensureUnique_loop (fuel : nat) (name : str) (used : gset str)
    (n : str) (i : N) : option str :=
  if bool_decide (n ∈ used) then
    match fuel with
    | O => None
    | S fuel' => ensureUnique_loop fuel' name used (name ++ decimal i) (i + 1)%N
    end
  else Some n.

(** [ensureUnique(name, used)]: the returned name and the set [used] after
    [used.add(n)]. *)
Definition ensureUnique (name : str) (used : gset str) : option (str * gset str) :=
  match ensureUnique_loop (size used) name used name 2%N with
  | Some n => Some (n, {[ n ]} ∪ used)
  | None => None
  end.

(** ** JavaScript values of the manifest tree *)

(** [JObj] lists the own enumerable properties in the order [Object.keys]
    reports them. *)
Inductive jsval : Type :=
  | JNull
  | JStr (s : str)
  | JArr (items : list jsval)
  | JObj (props : list (str * jsval)).

Definition truthy (v : jsval) : bool :=
  match v with
  | JNull => false
  | JStr s => negb (bool_decide (s = []))
  | JArr _ | JObj _ => true
  end.

Definition digits_value (s : str) : N :=
  fold_left (λ acc c, acc * 10 + (code c - 48))%N s 0%N.

(** A property key is an array index when it is the canonical decimal form of
    an integer below 2^32 - 1. *)
Definition array_index (k : str) : option N :=
  match k with
  | [] => None
  | c :: rest =>
      if forallb is_digit k
         && (negb (is_char "0"%char c) || bool_decide (rest = []))
         && (digits_value k <? 4294967295)%N
      then Some (digits_value k)
      else None
  end.

Fixpoint obj_get (props : list (str * jsval)) (k : str) : option jsval :=
  match props with
  | [] => None
  | (k', v) :: rest => if bool_decide (k' = k) then Some v else obj_get rest k
  end.

(** Assignment to an existing own property keeps its place. *)
Fixpoint obj_update (props : list (str * jsval)) (k : str) (v : jsval)
    : list (str * jsval) :=
  match props with
  | [] => []
  | (k', v') :: rest =>
      if bool_decide (k' = k) then (k', v) :: rest
      else (k', v') :: obj_update rest k v
  end.

(** A new array-index key is listed among the array-index keys, which come
    first, in ascending numeric order. *)
Fixpoint obj_insert_index (props : list (str * jsval)) (n : N) (k : str)
    (v : jsval) : list (str * jsval) :=
  match props with
  | [] => [(k, v)]
  | (k', v') :: rest =>
      match array_index k' with
      | Some m =>
          if (m <? n)%N then (k', v') :: obj_insert_index rest n k v
          else (k, v) :: props
      | None => (k, v) :: props
      end
  end.

(** [obj[k] = v] on an ordinary object, for a key that is not an accessor of
    the prototype: other new keys are listed last, in creation order. *)
Definition obj_set (props : list (str * jsval)) (k : str) (v : jsval)
    : list (str * jsval) :=
  match obj_get props k with
  | Some _ => obj_update props k v
  | None =>
      match array_index k with
      | Some n => obj_insert_index props n k v
      | None => props ++ [(k, v)]
      end
  end.

(** [Object.keys(obj)] *)
Definition obj_keys (props : list (str * jsval)) : list str := map fst props.

(** The properties every ordinary object inherits from [Object.prototype]. *)
Definition object_prototype_keys : list str :=
  map lit ["constructor"; "__defineGetter__"; "__defineSetter__";
           "hasOwnProperty"; "__lookupGetter__"; "__lookupSetter__";
           "isPrototypeOf"; "propertyIsEnumerable"; "toString"; "valueOf";
           "__proto__"; "toLocaleString"]%string.

Definition inherited (k : str) : bool := bool_decide (k ∈ object_prototype_keys).

(** [node[key] = v].  The module is an ES module, hence strict code: the
    assignment to a property of a primitive string throws. *)
Definition assign (node : jsval) (key : str) (v : jsval) : outcome jsval :=
  match node with
  | JObj props =>
      if bool_decide (key = lit "__proto__") then Unmodelled
      else Ok (JObj (obj_set props key v))
  | JStr _ => Throw TypeError
  | JNull => Throw TypeError
  | JArr _ => Unmodelled
  end.

(** [setInTree(tree, pathParts, leafValue)]; the result is the object [tree]
    after the call.  The nodes form a tree (every [{}] is created here and
    stored once), so the in-place updates are rebuilt on the way back. *)
Fixpoint setInTree (node : jsval) (pathParts : list str) (leafValue : str)
    : outcome jsval :=
  match pathParts with
  | [] => assign node (lit "undefined") (JStr leafValue)
  | [last] => assign node last (JStr leafValue)
  | part :: rest =>
      match node with
      | JObj props =>
          match obj_get props part with
          | Some child =>
              child' ← setInTree (if truthy child then child else JObj [])
                         rest leafValue;
              Ok (JObj (obj_update props part child'))
          | None =>
              if inherited part then Unmodelled
              else
                child' ← setInTree (JObj []) rest leafValue;
                Ok (JObj (obj_set props part child'))
          end
      | JStr _ | JArr _ => Unmodelled
      | JNull => Throw TypeError
      end
  end.

(** Order of [Array.prototype.sort()] without comparator on strings: by code
    units. *)
Fixpoint str_leb (a b : str) : bool :=
  match a, b with
  | [], _ => true
  | _ :: _, [] => false
  | c :: a', d :: b' =>
      if (code c <? code d)%N then true
      else if (code c =? code d)%N then str_leb a' b'
      else false
  end.

Definition str_le (a b : str) : Prop := str_leb a b = true.

Global Instance str_le_dec : RelDecision str_le.
Proof. intros a b. unfold str_le. apply _. Defined.

Definition js_sort (l : list str) : list str := merge_sort str_le l.

(** [sortObjectKeysDeep(obj)].  The source computes
    [sortObjectKeysDeep(obj[key])] inside the loop over the sorted keys; here
    the values are sorted first and looked up in the loop, which is the same
    value for every key.  [sorted["__proto__"] = v] reaches the prototype
    accessor and creates no own property. *)
Fixpoint sortObjectKeysDeep (obj : jsval) : jsval :=
  match obj with
  | JObj props =>
      let values :=
        map (λ kv, match kv with (k, v) => (k, sortObjectKeysDeep v) end) props in
      JObj (fold_left
              (λ sorted key,
                 match obj_get values key with
                 | Some v =>
                     if bool_decide (key = lit "__proto__") then sorted
                     else obj_set sorted key v
                 | None => sorted
                 end)
              (js_sort (obj_keys props)) [])
  | _ => obj
  end.

(** ** Directory walker *)

Definition IMAGE_EXTS : list str :=
  map lit [".png"; ".jpg"; ".jpeg"; ".webp"; ".gif"; ".bmp"; ".svg"; ".avif"]%string.

(** A directory entry as [readdir(dir, { withFileTypes: true })] reports it:
    a file, a directory with its own entries in the order [readdir] lists
    them, or anything else (link, socket, ...). *)
Inductive dirent : Type :=
  | File (name : str) (data : str)
  | Dir (name : str) (entries : list dirent)
  | Other (name : str).

Definition dirent_name (e : dirent) : str :=
  match e with
  | File name _ => name
  | Dir name _ => name
  | Other name => name
  end.

(** The body of the loop of [walk] for one entry; [walk] on a subdirectory is
    the same loop over its entries. *)
Fixpoint walk_entry (dir : str) (e : dirent) : list str :=
  match e with
  | Dir name entries => flat_map (walk_entry (path.join dir name)) entries
  | File name _ =>
      let full := path.join dir name in
      let ext := toLowerCase (path.extname name) in
      if bool_decide (ext ∈ IMAGE_EXTS)
         && negb (bool_decide (path.basename full None = lit "index.ts"))
      then [full]
      else []
  | Other _ => []
  end.

Definition walk (dir : str) (entries : list dirent) : list str :=
  flat_map (walk_entry dir) entries.

(** ** File system seen by the rename engine *)

Inductive fnode : Type :=
  | FFile (data : str)
  | FDir
  | FOther.

(** The file system: what exists at each path. *)
Definition fs_state : Type := gmap str fnode.

Fixpoint mount_entry (dir : str) (e : dirent) : list (str * fnode) :=
  match e with
  | File name data => [(path.join dir name, FFile data)]
  | Dir name entries =>
      (path.join dir name, FDir)
        :: flat_map (mount_entry (path.join dir name)) entries
  | Other name => [(path.join dir name, FOther)]
  end.

(** The file system that holds the directory [dir] with the given entries. *)
Definition mount (dir : str) (entries : list dirent) : fs_state :=
  list_to_map ((dir, FDir) :: flat_map (mount_entry dir) entries).

Definition existsSync (p : str) (fs : fs_state) : bool :=
  bool_decide (is_Some (fs !! p)).

(** [fs.rename(src, dst)] of a file inside one directory, as rename(2): an
    existing file at [dst] is replaced without notice. *)
Definition fs_rename (src dst : str) (fs : fs_state) : outcome fs_state :=
  match fs !! src with
  | None => Throw (FsError (lit "ENOENT"))
  | Some (FFile data) =>
      if bool_decide (src = dst) then Ok fs
      else
        match fs !! dst with
        | Some FDir => Throw (FsError (lit "EISDIR"))
        | _ => Ok (<[dst := FFile data]> (delete src fs))
        end
  | Some _ => Unmodelled
  end.

(** [map.set(k, v)] on a [Map]: an existing key keeps its place. *)
Fixpoint map_set (m : list (str * str)) (k v : str) : list (str * str) :=
  match m with
  | [] => [(k, v)]
  | (k', v') :: rest =>
      if bool_decide (k' = k) then (k', v) :: rest
      else (k', v') :: map_set rest k v
  end.

(** ** Rename engine *)

(** The body of the loop [for (const filePath of allFiles)] of
    [renameImagesInDirectory]. *)
Definition rename_step (nameCase : NameCase) (filePath : str)
    (st : fs_state * list (str * str)) : outcome (fs_state * list (str * str)) :=
  let '(fs, renameMap) := st in
  let fileName := path.basename filePath None in
  let convertedName := convertImageName fileName nameCase in
  if bool_decide (fileName ≠ convertedName) then
    let newPath := path.join (path.dirname filePath) convertedName in
    if existsSync newPath fs
       && bool_decide (toLowerCase fileName ≠ toLowerCase convertedName)
    then Throw (Error (lit "Cannot rename " ++ fileName ++ lit " to "
                         ++ convertedName ++ lit ": target file already exists"))
    else
      fs' ← (if bool_decide (toLowerCase fileName = toLowerCase convertedName)
                && bool_decide (fileName ≠ convertedName)
             then
               let tempPath :=
                 path.join (path.dirname filePath) (fileName ++ lit ".tmp") in
               fs1 ← fs_rename filePath tempPath fs;
               fs_rename tempPath newPath fs1
             else fs_rename filePath newPath fs);
      Ok (fs', map_set renameMap filePath newPath)
  else Ok st.

Fixpoint rename_loop (nameCase : NameCase) (allFiles : list str)
    (st : fs_state * list (str * str)) : outcome (fs_state * list (str * str)) :=
  match allFiles with
  | [] => Ok st
  | filePath :: rest =>
      st' ← rename_step nameCase filePath st;
      rename_loop nameCase rest st'
  end.

(** [renameImagesInDirectory(dir, nameCase)] on the directory [dir] holding
    [entries]: the file system after the call and the rename map. *)
Definition renameImagesInDirectory (dir : str) (entries : list dirent)
    (nameCase : NameCase) : outcome (fs_state * list (str * str)) :=
  match nameCase with
  | AnyCase => Ok (mount dir entries, [])
  | _ =>
      let allFiles := walk dir entries in
      rename_loop nameCase allFiles (mount dir entries, [])
  end.

(** ** Manifest generation *)

Definition hex_digit (n : N) : ascii :=
  if (n <? 10)%N then ascii_of_N (48 + n) else ascii_of_N (87 + n).

(** [JSON.stringify(s)] for a string. *)
Definition ch_quote : ascii := ascii_of_N 34.

Definition JSON_escape (c : ascii) : str :=
  if is_char ch_quote c then lit "\" ++ [ch_quote]
  else if is_char "\"%char c then lit "\\"
  else if (code c =? 8)%N then lit "\b"
  else if (code c =? 9)%N then lit "\t"
  else if (code c =? 10)%N then lit "\n"
  else if (code c =? 12)%N then lit "\f"
  else if (code c =? 13)%N then lit "\r"
  else if (code c <? 32)%N
  then lit "\u00" ++ [hex_digit (code c / 16); hex_digit (code c mod 16)]
  else [c].

Definition JSON_stringify (s : str) : str :=
  ch_quote :: flat_map JSON_escape s ++ [ch_quote].

(** [String(v)], which a template literal applies to the value it prints. *)
Fixpoint js_to_string (v : jsval) : str :=
  match v with
  | JNull => lit "null"
  | JStr s => s
  | JArr items =>
      join_with (lit ",")
        (map (λ x, match x with JNull => [] | _ => js_to_string x end) items)
  | JObj _ => lit "[object Object]"
  end.

Fixpoint repeat_str (s : str) (n : nat) : str :=
  match n with
  | O => []
  | S n' => s ++ repeat_str s n'
  end.

(** [/^[a-zA-Z_][a-zA-Z0-9_]*$/.test(k)] *)
Definition is_plain_key (k : str) : bool :=
  match k with
  | [] => false
  | c :: rest => is_ident_start c && forallb is_ident_char rest
  end.

(** [objectToTS(obj, indent)] *)
Fixpoint objectToTS (obj : jsval) (indent : nat) : str :=
  match obj with
  | JObj props =>
      let pad := repeat_str (lit "  ") indent in
      let entries :=
        map (λ kv,
               match kv with
               | (k, v) =>
                   let key := if is_plain_key k then k else JSON_stringify k in
                   repeat_str (lit "  ") (indent + 1) ++ key ++ lit ": "
                     ++ objectToTS v (indent + 1)
               end) props in
      lit "{" ++ [ascii_of_N 10] ++ join_with (lit "," ++ [ascii_of_N 10]) entries
        ++ [ascii_of_N 10] ++ pad ++ lit "}"
  | _ => js_to_string obj
  end.

Fixpoint is_prefix (p s : str) : bool :=
  match p, s with
  | [], _ => true
  | _ :: _, [] => false
  | a :: p', b :: s' => bool_decide (a = b) && is_prefix p' s'
  end.

(** [s.replace(pat, repl)] for a string pattern: the first occurrence. *)
Fixpoint replace_first (pat repl s : str) : str :=
  if is_prefix pat s then repl ++ drop (length pat) s
  else
    match s with
    | [] => []
    | c :: rest => c :: replace_first pat repl rest
    end.

Inductive ProjectType : Type := ViteReact | ReactNativeCli | NextJs.

(** The part of the configuration the generator reads, with the answer of
    [existsSync(publicDirPath)]. *)
Record gen_config : Type := mkConfig {
  projectType : ProjectType;
  publicDir : option str;          (* [assetsConfig.publicDir] *)
  imageBaseDir : str;              (* [imageConfig.baseDir] *)
  publicDirExists : bool
}.

(** [a || b] on strings. *)
Definition or_else (a b : str) : str :=
  match a with
  | [] => b
  | _ => a
  end.

(** [dirParts], [baseNoExt], [keysPath] and [varBase] for one file, from its
    path relative to the scanned root ([relFromImages]). *)
Definition dirPartsOf (relFromImages : str) : list str :=
  if bool_decide (path.dirname relFromImages = lit ".") then []
  else split_on ch_slash (path.dirname relFromImages).

Definition baseNoExtOf (relFromImages : str) : str :=
  path.basename relFromImages (Some (path.extname relFromImages)).

Definition keysPathOf (relFromImages : str) : list str :=
  map toCamel (dirPartsOf relFromImages)
    ++ [or_else (toCamel (baseNoExtOf relFromImages)) (lit "image")].

Definition varBaseOf (relFromImages : str) : str :=
  toValidIdentifier
    (or_else
       (join_with (lit "_")
          (List.filter (λ s : str, negb (bool_decide (s = [])))
             (map toCamel (dirPartsOf relFromImages ++ [baseNoExtOf relFromImages]))))
       (toCamel (baseNoExtOf relFromImages))).

(** [ensureUnique(varBase || "img", usedVarNames)] *)
Definition allocate (relFromImages : str) (used : gset str)
    : option (str * gset str) :=
  ensureUnique (or_else (varBaseOf relFromImages) (lit "img")) used.

(** The accumulators of the generator. *)
Record gen_state : Type := mkGen {
  usedVarNames : gset str;
  imports : list str;
  tree : jsval
}.

(** The body of [for (const abs of baseFiles)]. *)
Definition add_base_file (pt : ProjectType) (relFromImages : str)
    (st : gen_state) : outcome gen_state :=
  let importPath := lit "./" ++ relFromImages in
  match pt with
  | ReactNativeCli =>
      let requireStatement :=
        lit "require(" ++ JSON_stringify importPath ++ lit ")" in
      tree' ← setInTree (tree st) (keysPathOf relFromImages) requireStatement;
      Ok (mkGen (usedVarNames st) (imports st) tree')
  | _ =>
      match allocate relFromImages (usedVarNames st) with
      | None => Unmodelled
      | Some (varName, used') =>
          let imports' :=
            imports st ++ [lit "import " ++ varName ++ lit " from "
                             ++ JSON_stringify importPath ++ lit ";"] in
          tree' ← setInTree (tree st) (keysPathOf relFromImages) varName;
          Ok (mkGen used' imports' tree')
      end
  end.

(** The body of [for (const abs of publicFiles)]; [sizeOf] stands for
    [sizeOf(await fs.readFile(abs))]. *)
Definition add_public_file (cfg : gen_config)
    (sizeOf : str → outcome (option N * option N)) (relFromImages : str)
    (st : gen_state) : outcome gen_state :=
  dimensions ← sizeOf relFromImages;
  let lastPart :=
    default [] (last (split_on ch_slash (default [] (publicDir cfg)))) in
  let staticPath :=
    lit "/" ++ lastPart ++ lit "/" ++ imageBaseDir cfg ++ lit "/" ++ relFromImages in
  match allocate relFromImages (usedVarNames st) with
  | None => Unmodelled
  | Some (varName, used') =>
      let staticImageData :=
        lit "{" ++ [ascii_of_N 10]
        ++ lit "  src: " ++ JSON_stringify (replace_first (lit "/public") [] staticPath)
        ++ lit "," ++ [ascii_of_N 10]
        ++ lit "  width: " ++ decimal (default 0%N (fst dimensions))
        ++ lit "," ++ [ascii_of_N 10]
        ++ lit "  height: " ++ decimal (default 0%N (snd dimensions))
        ++ lit "," ++ [ascii_of_N 10] ++ lit "}" in
      let imports' :=
        imports st ++ [lit "const " ++ varName ++ lit ": StaticImageData = "
                         ++ staticImageData ++ lit ";"] in
      tree' ← setInTree (tree st) (keysPathOf relFromImages) varName;
      Ok (mkGen used' imports' tree')
  end.

Fixpoint for_each {A : Type} (body : str → A → outcome A) (files : list str)
    (st : A) : outcome A :=
  match files with
  | [] => Ok st
  | f :: rest => st' ← body f st; for_each body rest st'
  end.

(** [new Set(l)] as the list of its elements in insertion order. *)
Definition js_set (l : list str) : list str :=
  fold_left (λ acc x, if bool_decide (x ∈ acc) then acc else acc ++ [x]) l [].

(** What is written to [index.ts]: the declarations in the order they are
    printed and the tree the literal is printed from by [objectToTS]. *)
Record generated_module : Type := mkModule {
  declarations : list str;
  manifest : jsval
}.

(** How [generateImageIndex] ends once the directories have been scanned. *)
Inductive gen_result : Type :=
  | ExitDuplicates (duplicates : list str)
      (* [ui.error("Duplicate files found", ...); process.exit(1)] *)
  | ExitError (e : exn)
      (* the [catch] block: [process.exit(1)] *)
  | Written (m : generated_module)
      (* [fs.writeFile(outputFile, header + body)] *)
  | NotModelled.

(** [generateImageIndex] from the second scan on.  [baseFiles] and
    [publicWalk] are the results of [walk(baseDirPath)] and
    [walk(publicDirPath)] after the renames, each path taken relative to its
    root ([relFromImages]). *)
Definition generateImageIndex (cfg : gen_config)
    (sizeOf : str → outcome (option N * option N))
    (baseFiles publicWalk : list str) : gen_result :=
  let nextPublic :=
    match projectType cfg, publicDir cfg with
    | NextJs, Some d => negb (bool_decide (d = []))
    | _, _ => false
    end in
  let publicFiles :=
    if nextPublic && publicDirExists cfg then publicWalk else [] in
  let baseFileNames := js_set baseFiles in
  let publicFileNames := js_set publicFiles in
  let duplicates :=
    List.filter (λ name, bool_decide (name ∈ publicFileNames)) baseFileNames in
  match duplicates with
  | _ :: _ => ExitDuplicates duplicates
  | [] =>
      let typeImports :=
        match projectType cfg, publicFiles with
        | NextJs, _ :: _ =>
            [lit "import type { StaticImageData } from " ++ [ch_quote]
               ++ lit "next/image" ++ [ch_quote] ++ lit ";"]
        | _, _ => []
        end in
      let run :=
        st ← for_each (add_base_file (projectType cfg)) baseFiles
               (mkGen ∅ [] (JObj []));
        if nextPublic then for_each (add_public_file cfg sizeOf) publicFiles st
        else Ok st in
      match run with
      | Ok st =>
          let sortedTree := sortObjectKeysDeep (tree st) in
          match projectType cfg with
          | ReactNativeCli => Written (mkModule [] sortedTree)
          | _ => Written (mkModule (typeImports ++ js_sort (imports st)) sortedTree)
          end
      | Throw e => ExitError e
      | Unmodelled => NotModelled
      end
  end.

(** ** Configuration, the checks in front of the generator, and [gen]
    (src/commands/gen.ts, src/types/config.ts) *)

Inductive DKProjectType : Type :=
  | node_express
  | vite_react
  | react_native_cli
  | spring_boot_microservice
  | nextjs.

(** [supportedTypes.includes(config.projectType)], with the project type the
    generator then works with. *)
Definition supported_type (t : DKProjectType) : option ProjectType :=
  match t with
  | vite_react => Some ViteReact
  | react_native_cli => Some ReactNativeCli
  | nextjs => Some NextJs
  | node_express | spring_boot_microservice => None
  end.

Inductive InfoComment : Type := hidden | short_info.

Record AssetGeneratorConfig : Type := mkAssetGenerator {
  ag_baseDir : str;
  ag_nameCase : option NameCase;
  ag_infoComment : option InfoComment
}.

(** [publicDir] is read by assets.ts ([assetsConfig.publicDir]). *)
Record AssetsGeneratorConfig : Type := mkAssetsGenerator {
  as_baseDir : str;
  as_publicDir : option str;
  as_image : option AssetGeneratorConfig;
  as_svg : option AssetGeneratorConfig
}.

Record GeneratorsConfig : Type := mkGenerators {
  g_assets : option AssetsGeneratorConfig
}.

Record DKConfig : Type := mkDKConfig {
  dk_projectType : DKProjectType;
  dk_generators : option GeneratorsConfig
}.

(** [config.generators?.assets] *)
Definition assets_of (config : DKConfig) : option AssetsGeneratorConfig :=
  match dk_generators config with
  | Some g => g_assets g
  | None => None
  end.

(** [imageConfig.nameCase || "kebab-case"] *)
Definition imageNameCase_of (imageConfig : AssetGeneratorConfig) : NameCase :=
  default KebabCase (ag_nameCase imageConfig).

(** What the file system answers during one run, after the renames:
    [existsSync(baseDirPath)], [existsSync(publicDirPath)], the two walks
    (paths relative to their roots) and the image sizes. *)
Record scan : Type := mkScan {
  baseDirExists : bool;
  scan_publicDirExists : bool;
  scan_baseFiles : list str;
  scan_publicWalk : list str;
  scan_sizeOf : str → outcome (option N * option N)
}.

(** How the exported [generateImageIndex] ends: [ui.error] and
    [process.exit(1)] at one of its checks, [ui.warning] and return, or the
    outcome of the generation proper. *)
Inductive gi_outcome : Type :=
  | GiExit (title : str)
  | GiWarning (title : str)
  | GiDone (r : gen_result).

(** The exported [generateImageIndex]: the checks of lines 181-219 in front
    of the generation ([generateImageIndex] above). *)
Definition generateImageIndex_command (config : option DKConfig) (env : scan)
    : gi_outcome :=
  match config with
  | None => GiExit (lit "Configuration not found")
  | Some c =>
      match supported_type (dk_projectType c) with
      | None => GiExit (lit "Unsupported project type")
      | Some pt =>
          match assets_of c with
          | None => GiWarning (lit "Images configuration not found")
          | Some assetsConfig =>
              match as_image assetsConfig with
              | None => GiWarning (lit "Images configuration not found")
              | Some imageConfig =>
                  if negb (baseDirExists env)
                  then GiExit (lit "Images directory not found")
                  else
                    GiDone
                      (generateImageIndex
                         (mkConfig pt (as_publicDir assetsConfig)
                            (ag_baseDir imageConfig) (scan_publicDirExists env))
                         (scan_sizeOf env) (scan_baseFiles env)
                         (scan_publicWalk env))
              end
          end
      end
  end.

(** The tasks of [gen]. *)
Inductive task : Type := ImageAssets | SvgAssets.

(** How [gen] ends: at one of its own checks, inside the image generator
    (which has called [process.exit]), or after all tasks with the list of
    the tasks it ran. *)
Inductive gen_outcome : Type :=
  | GenExit (title : str)
  | GenWarning (title : str)
  | GenStopped (during : task) (g : gi_outcome)
  | GenCompleted (ran : list task)
  | GenNotModelled.

(** [for (const task of tasks) await task.fn()]; [ran] lists the tasks that
    have returned. *)
Fixpoint run_tasks (config : option DKConfig) (env : scan) (tasks : list task)
    (ran : list task) : gen_outcome :=
  match tasks with
  | [] => GenCompleted ran
  | ImageAssets :: rest =>
      match generateImageIndex_command config env with
      | GiWarning _ | GiDone (Written _) =>
          run_tasks config env rest (ran ++ [ImageAssets])
      | GiDone NotModelled => GenNotModelled
      | g => GenStopped ImageAssets g
      end
  | SvgAssets :: rest => run_tasks config env rest (ran ++ [SvgAssets])
  end.

(** [gen()]; the image generator reads the same configuration again. *)
Definition gen (config : option DKConfig) (env : scan) : gen_outcome :=
  match config with
  | None => GenExit (lit "Configuration not found")
  | Some c =>
      match supported_type (dk_projectType c) with
      | None => GenExit (lit "Unsupported project type")
      | Some _ =>
          match assets_of c with
          | None => GenWarning (lit "No generators configured")
          | Some assetsConfig =>
              let tasks :=
                match as_image assetsConfig with
                | Some _ => [ImageAssets]
                | None => []
                end
                ++ match as_svg assetsConfig with
                   | Some _ => [SvgAssets]
                   | None => []
                   end in
              match tasks with
              | [] => GenWarning (lit "No generators found")
              | _ => run_tasks config env tasks []
              end
          end
      end
  end.
(** * Part II: predicates and auxiliary definitions of the statements *)

(** [toKebabCase] and [toSnakeCase] are one pipeline, instantiated with the
    separator of the convention and the class of characters it replaces. *)
Definition normalize_with (sep : ascii) (sepcls : ascii → bool) (s : str) : str :=
  trim_sep sep
    (replace_runs (is_char sep) sep
       (strip_outside (λ c, is_lower c || is_digit c || is_char sep c)
          (toLowerCase (replace_runs sepcls sep (split_case_boundary sep s))))).

(** Characters that survive the pipeline. *)
Definition norm_char (sep c : ascii) : bool :=
  is_lower c || is_digit c || is_char sep c.

(** No two separators in a row. *)
Fixpoint no_double (sep : ascii) (s : str) : Prop :=
  match s with
  | a :: (b :: _) as tl => ¬ (a = sep ∧ b = sep) ∧ no_double sep tl
  | _ => True
  end.

(** The normal form the pipeline produces: only lower-case letters, digits and
    single separators, none of them first or last. *)
Definition normal_name (sep : ascii) (s : str) : Prop :=
  Forall (λ c, norm_char sep c = true) s ∧ no_double sep s
  ∧ head s ≠ Some sep ∧ last s ≠ Some sep.

(** A character that is neither the dot nor the separator. *)
Definition plain (c : ascii) : Prop := c ≠ ch_dot ∧ c ≠ ch_slash.

(** Invariant of the loop of [extname]: [rs] is still to be read, [done] has
    been read.  Either nothing but separators has been seen; or the end of
    the last component is fixed and only plain characters follow the reading
    position; or the right-most dot of the component is fixed too. *)
Definition ext_inv (rs done : str) (st : path.ext_state) : Prop :=
  (path.end_ st = -1 ∧ path.startDot st = -1)
  ∨ (path.startDot st = -1 ∧ path.matchedSlash st = false
     ∧ ∃ body trail, done = body ++ trail ∧ Forall plain body
         ∧ path.end_ st = len rs + len body)
  ∨ (path.matchedSlash st = false
     ∧ ∃ pre e trail, done = pre ++ ch_dot :: e ++ trail ∧ Forall plain e
         ∧ path.startDot st = len rs + len pre
         ∧ path.end_ st = path.startDot st + 1 + len e).

(** The base name [convertImageName] puts in front of the extension. *)
Definition normalized_base (fileName : str) (nameCase : NameCase) : str :=
  let nameWithoutExt := path.basename fileName (Some (path.extname fileName)) in
  match nameCase with
  | KebabCase => toKebabCase nameWithoutExt
  | SnakeCase => toSnakeCase nameWithoutExt
  | AnyCase => nameWithoutExt
  end.

(** [convertImageName] for the convention whose base-name function is
    [norm]. *)
Definition convert_with (norm : str → str) (f : str) : str :=
  norm (path.basename f (Some (path.extname f))) ++ path.extname f.

(** A run of the allocator: the calls [ensureUnique(name, used)] for the names
    of the list, in order, on the one set [used] they share. *)
Fixpoint ensureUnique_all (names : list str) (used : gset str)
    : option (list str * gset str) :=
  match names with
  | [] => Some ([], used)
  | name :: rest =>
      match ensureUnique name used with
      | Some (n, used') =>
          match ensureUnique_all rest used' with
          | Some (ns, used'') => Some (n :: ns, used'')
          | None => None
          end
      | None => None
      end
  end.

(** The collision policy: [n] is [name] when that is unused, and otherwise
    [name] followed by the least integer from 2 on that gives an unused
    name. *)
Definition collision_policy (name : str) (used : gset str) (n : str) : Prop :=
  (n ∉ used)
  ∧ (((name ∉ used) ∧ n = name)
     ∨ ((name ∈ used)
        ∧ ∃ k : N, (2 ≤ k)%N ∧ n = name ++ decimal k
            ∧ ∀ j : N, (2 ≤ j < k)%N → name ++ decimal j ∈ used)).

Fixpoint collision_policy_all (names outs : list str) (used : gset str) : Prop :=
  match names, outs with
  | [], [] => True
  | name :: names', n :: outs' =>
      collision_policy name used n
      ∧ collision_policy_all names' outs' ({[ n ]} ∪ used)
  | _, _ => False
  end.

(** Identifiers in the sense of the test [/^[a-zA-Z_][a-zA-Z0-9_]*$/] the
    source applies to keys (reserved words are not told apart). *)
Definition valid_identifier (s : str) : Prop :=
  match s with
  | [] => False
  | c :: rest =>
      is_ident_start c = true ∧ Forall (λ d, is_ident_char d = true) rest
  end.

(** The name [allocate] asks the allocator for. *)
Definition candidate (relFromImages : str) : str :=
  or_else (varBaseOf relFromImages) (lit "img").

(** The identifiers the loop over a listing allocates: each file of the
    listing with its identifier, in listing order, and the set of used names
    after the loop. *)
Fixpoint allocate_all (files : list str) (used : gset str)
    : option (list (str * str) * gset str) :=
  match files with
  | [] => Some ([], used)
  | f :: rest =>
      match allocate f used with
      | Some (varName, used') =>
          match allocate_all rest used' with
          | Some (ids, used'') => Some ((f, varName) :: ids, used'')
          | None => None
          end
      | None => None
      end
  end.

(** The import declaration [add_base_file] pushes for a file and its
    identifier. *)
Definition import_declaration (binding : str * str) : str :=
  lit "import " ++ binding.2 ++ lit " from "
    ++ JSON_stringify (lit "./" ++ binding.1) ++ lit ";".

(** RelativeKeyPath as the design document defines it: the root-relative
    path with the extension stripped from the final segment. *)
Definition spec_RelativeKeyPath (relFromImages : str) : str :=
  take (length relFromImages - length (path.extname relFromImages))%nat
    relFromImages.

(** The public directory is scanned: the project is a Next.js project, a
    public directory is configured and it exists. *)
Definition public_scan_active (cfg : gen_config) : Prop :=
  projectType cfg = NextJs
  ∧ (∃ d, publicDir cfg = Some d ∧ d ≠ [])
  ∧ publicDirExists cfg = true.


(** The rename map a call of the rename engine returns, and what the file
    system holds at a path after the call. *)
Definition rename_map_of (r : outcome (fs_state * list (str * str)))
    : option (list (str * str)) :=
  match r with
  | Ok (_, renameMap) => Some renameMap
  | _ => None
  end.

Definition node_after (r : outcome (fs_state * list (str * str))) (p : str)
    : option fnode :=
  match r with
  | Ok (fs, _) => fs !! p
  | _ => None
  end.

(** No two distinct original paths are mapped to one new path. *)
Definition no_duplicate_destinations (renameMap : list (str * str)) : Prop :=
  ∀ p1 p2 q, (p1, q) ∈ renameMap → (p2, q) ∈ renameMap → p1 = p2.

(** The keys of a mapping are listed in lexicographic order. *)
Definition keys_sorted (props : list (str * jsval)) : Prop :=
  Sorted str_le (obj_keys props).

(** Every mapping of a tree, at every depth, satisfies [P].  Arrays are not
    entered: the sorting pass returns them as they are. *)
Fixpoint every_mapping (P : list (str * jsval) → Prop) (v : jsval) : Prop :=
  match v with
  | JObj props =>
      P props ∧ fold_right (λ kv rest, every_mapping P kv.2 ∧ rest) True props
  | _ => True
  end.

(** No key of the mapping is an array index. *)
Definition no_index_key (props : list (str * jsval)) : Prop :=
  Forall (λ k, array_index k = None) (obj_keys props).

(** The value a tree holds at a path of own property keys. *)
Fixpoint tree_get (node : jsval) (keys : list str) : option jsval :=
  match keys with
  | [] => Some node
  | k :: rest =>
      match node with
      | JObj props =>
          match obj_get props k with
          | Some child => tree_get child rest
          | None => None
          end
      | _ => None
      end
  end.

(** Two key paths part ways: after a common prefix they go on with different
    keys. *)
Definition paths_diverge (p q : list str) : Prop :=
  ∃ common a b p' q', a ≠ b ∧ p = common ++ a :: p' ∧ q = common ++ b :: q'.

(** The extension filter of [walk]. *)
Definition image_name (name : str) : Prop :=
  toLowerCase (path.extname name) ∈ IMAGE_EXTS.

(** What every entry of a rename map satisfies: the original path is mapped
    to its directory joined with the normalized name, and that name differs
    from the original one. *)
Definition rename_record (nameCase : NameCase) (entry : str * str) : Prop :=
  let fileName := path.basename entry.1 None in
  entry.2 = path.join (path.dirname entry.1) (convertImageName fileName nameCase)
  ∧ fileName ≠ convertImageName fileName nameCase.
(** * Part III: proofs *)

(** ** Name normalizer *)

Lemma is_char_true (a c : ascii) : is_char a c = true ↔ c = a.
Proof. unfold is_char. apply bool_decide_eq_true. Qed.

Lemma is_char_false (a c : ascii) : is_char a c = false ↔ c ≠ a.
Proof. unfold is_char. apply bool_decide_eq_false. Qed.

Lemma is_char_refl (a : ascii) : is_char a a = true.
Proof. by apply is_char_true. Qed.


Lemma toKebabCase_normalize s : toKebabCase s = normalize_with ch_dash is_kebab_sep s.
Proof. reflexivity. Qed.

Lemma toSnakeCase_normalize s :
  toSnakeCase s = normalize_with ch_underscore is_snake_sep s.
Proof. reflexivity. Qed.


Section Normalizer.
Variable sep : ascii.
Variable sepcls : ascii → bool.
(** The separator is neither an upper-case letter nor in the replaced class,
    and the replaced class holds no letter or digit that survives. *)
Hypothesis sep_not_upper : is_upper sep = false.
Hypothesis sepcls_not_norm : ∀ c, norm_char sep c = true → sepcls c = false.

Lemma norm_char_not_upper c : norm_char sep c = true → is_upper c = false.
Proof.
  unfold norm_char. intros H.
  destruct (is_char sep c) eqn:E.
  - apply is_char_true in E. by subst.
  - rewrite orb_false_r in H. clear E. revert H.
    destruct c as [[] [] [] [] [] [] [] []]; vm_compute; congruence.
Qed.

Lemma split_case_boundary_id s :
  Forall (λ c, is_upper c = false) s → split_case_boundary sep s = s.
Proof.
  induction s as [|a [|b rest] IH]; intros H; try reflexivity.
  inversion H as [|? ? Ha Htl]; subst.
  inversion Htl as [|? ? Hb _]; subst.
  cbn [split_case_boundary]. rewrite Hb, andb_false_r.
  f_equal. by apply IH.
Qed.

Lemma replace_runs_go_id cls b s :
  Forall (λ c, cls c = false) s → replace_runs_go cls sep b s = s.
Proof.
  revert b. induction s as [|c s IH]; intros b H; [done|].
  inversion H as [|? ? Hc Hs]; subst. cbn. rewrite Hc. f_equal. by apply IH.
Qed.

Lemma toLowerCase_id s : Forall (λ c, is_upper c = false) s → toLowerCase s = s.
Proof.
  induction 1 as [|c s Hc _ IH]; [done|].
  cbn. unfold toLowerCase_char at 1. rewrite Hc. f_equal. exact IH.
Qed.

Lemma strip_outside_id cls s : Forall (λ c, cls c = true) s → strip_outside cls s = s.
Proof.
  induction 1 as [|c s Hc _ IH]; [done|].
  unfold strip_outside in *. cbn. by rewrite Hc, IH.
Qed.

(** Collapsing runs of the separator leaves a string without double
    separators unchanged. *)
Lemma collapse_id b s :
  no_double sep s → (b = true → head s ≠ Some sep) →
  replace_runs_go (is_char sep) sep b s = s.
Proof.
  revert b. induction s as [|c s IH]; intros b Hnd Hhd; [done|].
  cbn [replace_runs_go]. destruct (is_char sep c) eqn:E.
  - apply is_char_true in E. subst c. destruct b.
    + by destruct (Hhd eq_refl).
    + f_equal. apply IH.
      * destruct s; [done|]. apply Hnd.
      * intros _. destruct s as [|d s]; [done|]. cbn. intros [= ->].
        destruct Hnd as [Hnd _]. by apply Hnd.
  - f_equal. apply IH; [|done]. destruct s; [done|]. apply Hnd.
Qed.

Lemma strip_trailing_id s : last s ≠ Some sep → strip_trailing sep s = s.
Proof.
  induction s as [|c [|d s] IH]; intros H; [done| |].
  - cbn. destruct (is_char sep c) eqn:E; [|done].
    apply is_char_true in E. subst. by destruct H.
  - change (c :: strip_trailing sep (d :: s) = c :: d :: s).
    f_equal. apply IH. exact H.
Qed.

Lemma strip_leading_id s : head s ≠ Some sep → strip_leading sep s = s.
Proof.
  destruct s as [|c s]; [done|]. cbn. intros H.
  destruct (is_char sep c) eqn:E; [|done].
  apply is_char_true in E. subst. by destruct H.
Qed.

(** A name in normal form is a fixed point of the pipeline. *)
Lemma normalize_with_fixed s : normal_name sep s → normalize_with sep sepcls s = s.
Proof.
  intros (Hch & Hnd & Hhd & Hls). unfold normalize_with.
  assert (Hup : Forall (λ c, is_upper c = false) s).
  { eapply Forall_impl; [exact Hch|]. apply norm_char_not_upper. }
  rewrite split_case_boundary_id by exact Hup.
  unfold replace_runs at 2. rewrite replace_runs_go_id.
  2:{ eapply Forall_impl; [exact Hch|]. apply sepcls_not_norm. }
  rewrite toLowerCase_id by exact Hup.
  rewrite strip_outside_id by exact Hch.
  unfold replace_runs. rewrite collapse_id by (done || congruence).
  unfold trim_sep. rewrite strip_leading_id by done.
  by apply strip_trailing_id.
Qed.

Lemma norm_char_sep : norm_char sep sep = true.
Proof. unfold norm_char. by rewrite is_char_refl, orb_true_r. Qed.

(** Collapsing a string of surviving characters. *)
Lemma collapse_spec b s :
  Forall (λ c, norm_char sep c = true) s →
  let r := replace_runs_go (is_char sep) sep b s in
  Forall (λ c, norm_char sep c = true) r ∧ no_double sep r
  ∧ (b = true → head r ≠ Some sep).
Proof.
  revert b. induction s as [|c s IH]; intros b H; [by cbn|].
  inversion H as [|? ? Hc Hs]; subst.
  cbn [replace_runs_go]. destruct (is_char sep c) eqn:E.
  - destruct (IH true Hs) as (F & ND & HD). destruct b; [done|].
    cbn zeta. split; [constructor; [apply norm_char_sep | done]|]. split; [|done].
    destruct (replace_runs_go (is_char sep) sep true s) as [|d r] eqn:Er; [done|].
    split; [|done]. intros [_ ->]. by apply HD.
  - destruct (IH false Hs) as (F & ND & _).
    cbn zeta. split; [by constructor|]. split.
    + destruct (replace_runs_go (is_char sep) sep false s); [done|].
      split; [|done]. intros [-> _]. by rewrite is_char_refl in E.
    + intros _. cbn. intros [= ->]. by rewrite is_char_refl in E.
Qed.

Lemma no_double_tail c s : no_double sep (c :: s) → no_double sep s.
Proof. destruct s; [done|]. by intros [_ ?]. Qed.

Lemma strip_trailing_spec s :
  Forall (λ c, norm_char sep c = true) s → no_double sep s →
  let r := strip_trailing sep s in
  Forall (λ c, norm_char sep c = true) r ∧ no_double sep r
  ∧ (head s ≠ Some sep → head r ≠ Some sep) ∧ last r ≠ Some sep.
Proof.
  induction s as [|c [|d s] IH]; intros F ND.
  - by cbn.
  - cbn. destruct (is_char sep c) eqn:E; [by cbn|].
    repeat split; try done. cbn. intros [= ->]. by rewrite is_char_refl in E.
  - change (strip_trailing sep (c :: d :: s)) with (c :: strip_trailing sep (d :: s)).
    inversion F as [|? ? Hc Hs]; subst.
    destruct (IH Hs (no_double_tail _ _ ND)) as (F' & ND' & HD' & LS').
    cbn zeta. split; [by constructor|].
    destruct (strip_trailing sep (d :: s)) as [|d' r] eqn:Er.
    + (* the tail was a single separator *)
      destruct s as [|e s]; [|by destruct s].
      cbn in Er. destruct (is_char sep d) eqn:Ed; [|done].
      apply is_char_true in Ed. subst d.
      repeat split; try done. cbn. intros [= ->]. destruct ND as [ND _]. by apply ND.
    + assert (d' = d) as ->.
      { destruct s as [|e s]; cbn in Er.
        - destruct (is_char sep d); by inversion Er.
        - by inversion Er. }
      split; [split; [apply ND | exact ND']|]. split; [done|].
      exact LS'.
Qed.

(** Whatever the input, the pipeline ends in normal form. *)
Lemma normalize_with_normal s : normal_name sep (normalize_with sep sepcls s).
Proof.
  unfold normalize_with.
  set (t := strip_outside _ _).
  assert (Ht : Forall (λ c, norm_char sep c = true) t).
  { subst t. unfold strip_outside. apply Forall_forall. intros c Hc.
    apply list_elem_of_In, filter_In in Hc. by destruct Hc as [_ Hc]. }
  destruct (collapse_spec false t Ht) as (F & ND & _).
  fold (replace_runs (is_char sep) sep t) in F, ND.
  set (u := replace_runs (is_char sep) sep t) in *.
  unfold trim_sep.
  assert (F1 : Forall (λ c, norm_char sep c = true) (strip_leading sep u)
               ∧ no_double sep (strip_leading sep u)
               ∧ head (strip_leading sep u) ≠ Some sep).
  { destruct u as [|c u']; [by cbn|]. cbn [strip_leading].
    destruct (is_char sep c) eqn:E.
    - apply is_char_true in E. subst c. inversion F; subst.
      split; [done|]. split; [by eapply no_double_tail|].
      destruct u' as [|d u'']; [done|]. cbn. intros [= ->].
      destruct ND as [ND _]. by apply ND.
    - split; [done|]. split; [done|]. cbn. intros [= ->].
      by rewrite is_char_refl in E. }
  destruct F1 as (F1 & ND1 & HD1).
  destruct (strip_trailing_spec _ F1 ND1) as (F2 & ND2 & HD2 & LS2).
  repeat split; auto.
Qed.

(** Idempotence of the pipeline. *)
Lemma normalize_with_idem s :
  normalize_with sep sepcls (normalize_with sep sepcls s) = normalize_with sep sepcls s.
Proof. apply normalize_with_fixed, normalize_with_normal. Qed.
End Normalizer.

Lemma kebab_sep_side c : norm_char ch_dash c = true → is_kebab_sep c = false.
Proof. destruct c as [[] [] [] [] [] [] [] []]; vm_compute; congruence. Qed.

Lemma snake_sep_side c : norm_char ch_underscore c = true → is_snake_sep c = false.
Proof. destruct c as [[] [] [] [] [] [] [] []]; vm_compute; congruence. Qed.

Lemma toKebabCase_normal s : normal_name ch_dash (toKebabCase s).
Proof. apply normalize_with_normal. Qed.

Lemma toSnakeCase_normal s : normal_name ch_underscore (toSnakeCase s).
Proof. apply normalize_with_normal. Qed.

Lemma toKebabCase_fixed s : normal_name ch_dash s → toKebabCase s = s.
Proof. apply normalize_with_fixed; [reflexivity | apply kebab_sep_side]. Qed.

Lemma toSnakeCase_fixed s : normal_name ch_underscore s → toSnakeCase s = s.
Proof. apply normalize_with_fixed; [reflexivity | apply snake_sep_side]. Qed.

(** ** Properties of [path.extname] and [path.basename] *)


Lemma len_app (a b : str) : len (a ++ b) = len a + len b.
Proof. unfold len. rewrite length_app. lia. Qed.

Lemma len_cons c (a : str) : len (c :: a) = len a + 1.
Proof. unfold len. cbn [length]. lia. Qed.

Lemma len_nonneg (a : str) : 0 <= len a.
Proof. unfold len. lia. Qed.

Lemma len_rev (a : str) : len (rev a) = len a.
Proof. unfold len. by rewrite length_rev. Qed.

Lemma slice_middle (a b c : str) :
  slice (a ++ b ++ c) (len a) (len a + len b) = b.
Proof.
  unfold slice, len. rewrite Nat2Z.id.
  replace (Z.to_nat (Z.of_nat (length a) + Z.of_nat (length b)) - length a)%nat
    with (length b) by lia.
  rewrite drop_app_length. apply take_app_length.
Qed.



Lemma extname_loop_inv rs : ∀ done st,
  ext_inv rs done st →
  ∃ rs' done', rev rs' ++ done' = rev rs ++ done
    ∧ ext_inv rs' done' (path.extname_loop rs (len rs - 1) st).
Proof.
  induction rs as [|c rs IH]; intros done st Hinv.
  { exists [], done. by split. }
  cbn [path.extname_loop]. rewrite len_cons.
  replace (len rs + 1 - 1) with (len rs) by lia.
  destruct (is_char ch_slash c) eqn:Es.
  - apply is_char_true in Es. subst c.
    destruct (path.matchedSlash st) eqn:Ems; cbn [negb].
    + (* continue: only separators so far *)
      destruct (IH (ch_slash :: done) st) as (rs' & done' & Heq & Hinv').
      { destruct Hinv as [HA | [(_ & Hms & _) | (Hms & _)]]; [by left | congruence..]. }
      exists rs', done'. split; [|done].
      rewrite Heq. cbn [rev]. by rewrite <- app_assoc.
    + (* break *)
      exists (ch_slash :: rs), done. split; [done|].
      destruct st as [sd sp en ms pds]. cbn in *.
      destruct Hinv as [HA | [(HB1 & HB2 & HB3) | (HC1 & HC2)]];
        [by left | right; left | right; right]; cbn; auto.
  - apply is_char_false in Es.
    match goal with |- context [path.extname_loop rs _ ?s2] => set (st2 := s2) end.
    destruct (IH (c :: done) st2) as (rs' & done' & Heq & Hinv').
    2:{ exists rs', done'. split; [|done].
        rewrite Heq. cbn [rev]. by rewrite <- app_assoc. }
    clear IH. subst st2.
    pose proof (len_nonneg rs) as Hrs.
    destruct st as [sd sp en ms pds]. unfold ext_inv in Hinv. cbn in Hinv.
    rewrite len_cons in Hinv. cbn [path.end_ path.startDot path.startPart
      path.matchedSlash path.preDotState].
    destruct Hinv as [(-> & ->) | [(-> & -> & body & trail & -> & HBF & ->)
                         | (-> & pre & e & trail & -> & HCF & -> & ->)]].
    + (* first character of the component *)
      change (-1 =? -1) with true. cbv iota. cbn [path.startDot].
      change (-1 =? -1) with true. cbv iota.
      destruct (is_char ch_dot c) eqn:Ed.
      * apply is_char_true in Ed. subst c.
        right; right. cbn. split; [done|]. exists [], [], done.
        split; [done|]. split; [constructor|]. unfold len; cbn; lia.
      * apply is_char_false in Ed. cbn [negb]. cbv iota.
        right; left. cbn. split; [done|]. split; [done|]. exists [c], done.
        split; [done|]. split; [by repeat constructor|]. unfold len; cbn; lia.
    + pose proof (len_nonneg body) as Hbody.
      destruct (Z.eqb_spec (len rs + 1 + len body) (-1)) as [?|_]; [lia|].
      cbn [path.startDot]. change (-1 =? -1) with true. cbv iota. cbn [negb].
      destruct (is_char ch_dot c) eqn:Ed.
      * apply is_char_true in Ed. subst c.
        right; right. cbn. split; [done|]. exists [], body, trail.
        split; [done|]. split; [done|]. unfold len; cbn; lia.
      * apply is_char_false in Ed.
        right; left. cbn. split; [done|]. split; [done|]. exists (c :: body), trail.
        split; [done|]. split; [by constructor|]. rewrite len_cons. lia.
    + pose proof (len_nonneg pre) as Hpre. pose proof (len_nonneg e) as He.
      destruct (Z.eqb_spec (len rs + 1 + len pre + 1 + len e) (-1)) as [?|_]; [lia|].
      cbn [path.startDot path.preDotState path.end_ path.startPart path.matchedSlash].
      destruct (Z.eqb_spec (len rs + 1 + len pre) (-1)) as [?|_]; [lia|]. cbn [negb].
      assert (Hgoal : ∀ sp' pds', ext_inv rs (c :: pre ++ ch_dot :: e ++ trail)
                {| path.startDot := len rs + 1 + len pre; path.startPart := sp';
                   path.end_ := len rs + 1 + len pre + 1 + len e;
                   path.matchedSlash := false; path.preDotState := pds' |}).
      { intros sp' pds'. right; right. cbn. split; [done|].
        exists (c :: pre), e, trail.
        split; [done|]. split; [done|]. rewrite ?len_cons; lia. }
      destruct (is_char ch_dot c); [destruct (negb (pds =? 1))|]; apply Hgoal.
Qed.

(** The extension is empty, or a dot followed by plain characters. *)
Lemma extname_shape p :
  path.extname p = [] ∨ ∃ e, path.extname p = ch_dot :: e ∧ Forall plain e.
Proof.
  unfold path.extname.
  destruct (extname_loop_inv (rev p) [] path.ext_init) as (rs' & done' & Heq & Hinv).
  { by left. }
  rewrite len_rev in Hinv. rewrite rev_involutive, app_nil_r in Heq.
  set (st := path.extname_loop (rev p) (len p - 1) path.ext_init) in *.
  destruct (path.startDot st =? -1) eqn:Esd; [by left|]. cbn [orb].
  match goal with |- context [if ?b then _ else _] => destruct b end; [by left|].
  right. apply Z.eqb_neq in Esd.
  destruct Hinv as [(_ & ?) | [(? & _) | (_ & pre & e & trail & -> & HF & Hsd & Hen)]];
    [congruence..|].
  exists e. split; [|done].
  rewrite Hen, Hsd, <- Heq.
  replace (len rs' + len pre) with (len (rev rs' ++ pre))
    by (rewrite len_app, len_rev; lia).
  replace (len (rev rs' ++ pre) + 1 + len e) with
    (len (rev rs' ++ pre) + len (ch_dot :: e)) by (rewrite (len_cons _ e); lia).
  rewrite (app_assoc (rev rs') pre).
  change (ch_dot :: e ++ trail) with ((ch_dot :: e) ++ trail).
  apply slice_middle.
Qed.

Lemma extname_loop_no_dot rs : ∀ i st,
  Forall (λ c, c ≠ ch_dot) rs → path.startDot st = -1 →
  path.startDot (path.extname_loop rs i st) = -1.
Proof.
  induction rs as [|c rs IH]; intros i st HF Hsd; [done|].
  inversion HF as [|? ? Hc Hrs]; subst.
  cbn [path.extname_loop].
  destruct (is_char ch_slash c); [destruct (negb (path.matchedSlash st))|].
  - done.
  - by apply IH.
  - apply is_char_false in Hc. rewrite Hc. apply IH; [done|].
    destruct st as [sd sp en ms pds]; cbn in *. subst sd.
    by destruct (en =? -1).
Qed.

(** A name without a dot has no extension. *)
Lemma extname_no_dot p : Forall (λ c, c ≠ ch_dot) p → path.extname p = [].
Proof.
  intros HF. unfold path.extname.
  rewrite extname_loop_no_dot; [done| |done].
  apply Forall_forall. intros c Hc. rewrite list_elem_of_In, <- in_rev, <- list_elem_of_In in Hc.
  revert c Hc. by apply Forall_forall.
Qed.

Ltac ext_simpl :=
  repeat first
    [ progress cbn [path.startDot path.end_ path.startPart
                    path.matchedSlash path.preDotState negb]
    | progress change (-1 =? -1) with true
    | progress cbv iota ].

(** Reading a block of plain characters before any dot has been seen. *)
Lemma extname_loop_plain_nodot blk : ∀ rest i sp en ms pds,
  Forall plain blk → len blk - 1 <= i →
  path.extname_loop (blk ++ rest) i (path.mkExt (-1) sp en ms pds) =
  path.extname_loop rest (i - len blk)
    (if len blk =? 0 then path.mkExt (-1) sp en ms pds
     else path.mkExt (-1) sp (if en =? -1 then i + 1 else en)
            (if en =? -1 then false else ms) pds).
Proof.
  induction blk as [|c blk IH]; intros rest i sp en ms pds HF Hi.
  { cbn. f_equal. unfold len; cbn; lia. }
  inversion HF as [|? ? [Hd Hs] Hblk]; subst.
  rewrite len_cons in *. pose proof (len_nonneg blk).
  destruct (Z.eqb_spec (len blk + 1) 0) as [?|_]; [lia|].
  cbn [app path.extname_loop].
  apply is_char_false in Hd, Hs. rewrite Hs, Hd.
  cbn [path.startDot path.end_ path.startPart path.matchedSlash path.preDotState].
  change (-1 =? -1) with true. cbn [negb].
  destruct (Z.eqb_spec en (-1)) as [->|Hen]; ext_simpl.
  - rewrite IH by (done || lia).
    replace (i - 1 - len blk) with (i - (len blk + 1)) by lia.
    destruct (Z.eqb_spec (len blk) 0); [done|].
    destruct (Z.eqb_spec (i + 1) (-1)); [lia|done].
  - rewrite IH by (done || lia).
    replace (i - 1 - len blk) with (i - (len blk + 1)) by lia.
    destruct (Z.eqb_spec (len blk) 0); [done|].
    destruct (Z.eqb_spec en (-1)); [lia|done].
Qed.

(** Reading a block of plain characters once the dot has been seen. *)
Lemma extname_loop_plain_dot blk : ∀ rest i sd sp en ms pds,
  Forall plain blk → sd ≠ -1 → en ≠ -1 →
  path.extname_loop (blk ++ rest) i (path.mkExt sd sp en ms pds) =
  path.extname_loop rest (i - len blk)
    (path.mkExt sd sp en ms (if len blk =? 0 then pds else -1)).
Proof.
  induction blk as [|c blk IH]; intros rest i sd sp en ms pds HF Hsd Hen.
  { cbn. f_equal. unfold len; cbn; lia. }
  inversion HF as [|? ? [Hd Hs] Hblk]; subst.
  rewrite len_cons in *. pose proof (len_nonneg blk).
  destruct (Z.eqb_spec (len blk + 1) 0) as [?|_]; [lia|].
  cbn [app path.extname_loop].
  apply is_char_false in Hd, Hs. rewrite Hs, Hd.
  cbn [path.startDot path.end_ path.startPart path.matchedSlash path.preDotState].
  destruct (Z.eqb_spec en (-1)); [done|].
  cbn [path.startDot path.end_ path.startPart path.matchedSlash path.preDotState].
  destruct (Z.eqb_spec sd (-1)); [done|]. cbn [negb].
  rewrite IH by done.
  replace (i - 1 - len blk) with (i - (len blk + 1)) by lia.
  by destruct (len blk =? 0).
Qed.

Lemma Forall_plain_rev (s : str) : Forall plain s → Forall plain (rev s).
Proof.
  intros H. apply Forall_forall. intros c Hc.
  rewrite list_elem_of_In, <- in_rev, <- list_elem_of_In in Hc.
  revert c Hc. by apply Forall_forall.
Qed.

(** The extension of a non-empty plain name followed by a dot and plain
    characters is that dot and what follows. *)
Lemma extname_of_joined k e :
  k ≠ [] → Forall plain k → Forall plain e →
  path.extname (k ++ ch_dot :: e) = ch_dot :: e.
Proof.
  intros Hk Fk Fe. unfold path.extname.
  assert (Hlk : 0 < len k) by (destruct k; [done|]; rewrite len_cons; pose proof (len_nonneg k); lia).
  pose proof (len_nonneg e) as Hle.
  rewrite rev_app_distr. cbn [rev]. rewrite <- app_assoc. cbn [app].
  rewrite len_app, len_cons.
  unfold path.ext_init.
  rewrite extname_loop_plain_nodot
    by first [by apply Forall_plain_rev | rewrite len_rev; lia].
  rewrite len_rev.
  replace (len k + (len e + 1) - 1 - len e) with (len k) by lia.
  replace (len k + (len e + 1) - 1 + 1) with (len k + len e + 1) by lia.
  change (-1 =? -1) with true. cbv iota.
  assert (Hdot : ∀ st, path.end_ st = -1 ∨ path.end_ st = len k + len e + 1 →
            (path.end_ st = -1 → len e = 0) →
            (path.end_ st ≠ -1 → path.matchedSlash st = false) →
            path.startDot st = -1 →
            path.preDotState st = 0 → path.startPart st = 0 →
            path.extname_loop (ch_dot :: rev k) (len k) st =
            path.mkExt (len k) 0 (len k + len e + 1) false (-1)).
  { intros [sd sp en ms pds]. cbn. intros Hen He Hms -> -> ->.
    replace (is_char ch_slash ch_dot) with false by reflexivity.
    replace (is_char ch_dot ch_dot) with true by reflexivity.
    assert (∀ en' ms', en' = len k + len e + 1 →
      path.extname_loop (rev k) (len k - 1)
        {| path.startDot := len k; path.startPart := 0; path.end_ := en';
           path.matchedSlash := ms'; path.preDotState := 0 |} =
      path.mkExt (len k) 0 (len k + len e + 1) ms' (-1)) as Hk2.
    { intros en' ms' ->. rewrite <- (app_nil_r (rev k)).
      rewrite extname_loop_plain_dot by first [by apply Forall_plain_rev | lia].
      rewrite len_rev. cbn [path.extname_loop].
      by destruct (Z.eqb_spec (len k) 0); [lia|]. }
    destruct (Z.eqb_spec en (-1)) as [->|Hne].
    - cbn. rewrite Hk2; [done|]. rewrite (He eq_refl). lia.
    - cbn. destruct Hen as [? | ->]; [congruence|]. rewrite Hk2 by done.
      by rewrite Hms. }
  rewrite Hdot.
  - cbn [path.startDot path.end_ path.preDotState path.startPart].
    destruct (Z.eqb_spec (len k) (-1)); [lia|].
    destruct (Z.eqb_spec (len k + len e + 1) (-1)); [lia|].
    cbn [orb andb].
    change (-1 =? 0) with false. change (-1 =? 1) with false. cbn [orb andb].
    replace (len k + len e + 1) with (len k + len (ch_dot :: e)) by (rewrite len_cons; lia).
    pose proof (slice_middle k (ch_dot :: e) []) as Hsl.
    by rewrite app_nil_r in Hsl.
  - destruct (len e =? 0); cbn; auto.
  - destruct (Z.eqb_spec (len e) 0); cbn; [done|]. lia.
  - by destruct (len e =? 0).
  - by destruct (len e =? 0).
  - by destruct (len e =? 0).
  - by destruct (len e =? 0).
Qed.








(** ** [convertImageName] *)

Lemma norm_char_plain_dash c : norm_char ch_dash c = true → plain c.
Proof.
  unfold plain. destruct c as [[] [] [] [] [] [] [] []]; vm_compute; intros H;
    (discriminate H || (split; discriminate)).
Qed.

Lemma norm_char_plain_underscore c : norm_char ch_underscore c = true → plain c.
Proof.
  unfold plain. destruct c as [[] [] [] [] [] [] [] []]; vm_compute; intros H;
    (discriminate H || (split; discriminate)).
Qed.

(** The extension of a name that starts with its only dot is empty. *)
Lemma extname_leading_dot e : Forall plain e → path.extname (ch_dot :: e) = [].
Proof.
  intros Fe. unfold path.extname. cbn [rev]. rewrite len_cons.
  pose proof (len_nonneg e) as Hle. unfold path.ext_init.
  rewrite extname_loop_plain_nodot
    by first [by apply Forall_plain_rev | rewrite len_rev; lia].
  rewrite len_rev.
  replace (len e + 1 - 1 - len e) with 0 by lia.
  assert (Hst : ∀ st, path.startDot st = -1 → path.preDotState st = 0 →
            path.preDotState (path.extname_loop [ch_dot] 0 st) = 0
            ∧ path.startDot (path.extname_loop [ch_dot] 0 st) = 0).
  { intros [sd sp en ms pds]. cbn. intros -> ->.
    replace (is_char ch_slash ch_dot) with false by reflexivity.
    replace (is_char ch_dot ch_dot) with true by reflexivity.
    by destruct (en =? -1). }
  match goal with |- context [path.extname_loop [ch_dot] 0 ?s] =>
    destruct (Hst s) as [Hp Hs] end.
  { by destruct (len e =? 0). }
  { by destruct (len e =? 0). }
  rewrite Hp, Hs. change (0 =? 0) with true. by rewrite orb_true_r.
Qed.

Section Convert.
Variable sep : ascii.
Variable norm : str → str.
Hypothesis norm_normal : ∀ s, normal_name sep (norm s).
Hypothesis norm_fixed : ∀ s, normal_name sep s → norm s = s.
Hypothesis norm_plain : ∀ c, norm_char sep c = true → plain c.

Lemma norm_result_plain s : Forall plain (norm s).
Proof.
  destruct (norm_normal s) as (F & _). eapply Forall_impl; [exact F|]. exact norm_plain.
Qed.


Lemma convert_with_not_idem f :
  path.extname f ≠ [] → norm (path.basename f (Some (path.extname f))) = [] →
  convert_with norm (convert_with norm f) ≠ convert_with norm f.
Proof.
  intros Hext Hk. unfold convert_with at 2 3. rewrite Hk. cbn [app].
  destruct (extname_shape f) as [E | (e & E & Fe)]; [done|]. rewrite E.
  unfold convert_with. rewrite extname_leading_dot by done. rewrite app_nil_r.
  intros Heq.
  assert (Fp : Forall plain (ch_dot :: e)) by (rewrite <- Heq; apply norm_result_plain).
  inversion Fp as [|? ? [Hd _] _]. by apply Hd.
Qed.
End Convert.

Lemma convertImageName_kebab f :
  convertImageName f KebabCase = convert_with toKebabCase f.
Proof. reflexivity. Qed.

Lemma convertImageName_snake f :
  convertImageName f SnakeCase = convert_with toSnakeCase f.
Proof. reflexivity. Qed.



(** The side condition of the idempotence result is necessary: when the base
    name normalizes to the empty string in front of a non-empty extension, a
    second application changes the name again. *)
Lemma convertImageName_not_idempotent (f : str) (c : NameCase) :
  c ≠ AnyCase → path.extname f ≠ [] → normalized_base f c = [] →
  convertImageName (convertImageName f c) c ≠ convertImageName f c.
Proof.
  intros Hc Hext Hk. destruct c; [| |done].
  - rewrite !convertImageName_kebab.
    apply (convert_with_not_idem ch_dash);
      [apply toKebabCase_normal | apply norm_char_plain_dash | done | done].
  - rewrite !convertImageName_snake.
    apply (convert_with_not_idem ch_underscore);
      [apply toSnakeCase_normal | apply norm_char_plain_underscore | done | done].
Qed.


(** ** Identifier allocator *)

Lemma lit_app (a b : string) : lit (a +:+ b) = lit a ++ lit b.
Proof. unfold lit. induction a as [|c a IH]; [done|]. cbn. by rewrite <- IH. Qed.

Lemma lit_inj (a b : string) : lit a = lit b → a = b.
Proof.
  unfold lit. intros H.
  rewrite <- (string_of_list_ascii_of_string a), <- (string_of_list_ascii_of_string b).
  by rewrite H.
Qed.

Lemma pretty_N_char_digit x : is_digit (pretty_N_char x) = true.
Proof. unfold pretty_N_char. by repeat case_match. Qed.

Lemma pretty_N_go_digits x : ∀ s,
  ∃ d : str, lit (pretty_N_go x s) = d ++ lit s
    ∧ Forall (λ c, is_digit c = true) d ∧ ((0 < x)%N → d ≠ []).
Proof.
  induction (N.lt_wf_0 x) as [x _ IH]; intros s.
  destruct (decide (x = 0%N)) as [->|Hx].
  { exists []. rewrite pretty_N_go_0. repeat split; [done|lia]. }
  rewrite pretty_N_go_step by lia.
  destruct (IH (x `div` 10)%N) with (s := String (pretty_N_char (x `mod` 10)) s)
    as (d & Hd & Fd & _).
  { apply N.div_lt; lia. }
  exists (d ++ [pretty_N_char (x `mod` 10)%N]).
  rewrite Hd, <- app_assoc. split; [done|]. split.
  - apply Forall_app. split; [done|]. repeat constructor. apply pretty_N_char_digit.
  - intros _. by destruct d.
Qed.

(** The decimal form of a number is a non-empty string of digits. *)
Lemma decimal_digits k : Forall (λ c, is_digit c = true) (decimal k) ∧ decimal k ≠ [].
Proof.
  unfold decimal, pretty, pretty_N. destruct (decide (k = 0%N)) as [->|Hk].
  { split; [by repeat constructor|done]. }
  destruct (pretty_N_go_digits k EmptyString) as (d & Hd & Fd & Hne).
  rewrite Hd. change (lit EmptyString) with (@nil ascii). rewrite app_nil_r.
  split; [done|]. apply Hne. lia.
Qed.

Lemma decimal_inj j k : decimal j = decimal k → j = k.
Proof. unfold decimal. intros H. apply lit_inj in H. by apply (inj pretty) in H. Qed.

Lemma suffixed_inj (name : str) j k : name ++ decimal j = name ++ decimal k → j = k.
Proof. intros H. apply app_inv_head in H. by apply decimal_inj. Qed.

Lemma suffixed_ne (name : str) k : name ≠ name ++ decimal k.
Proof.
  intros H. rewrite <- (app_nil_r name) in H at 1. apply app_inv_head in H.
  symmetry in H. by apply decimal_digits in H.
Qed.

(** The loop finds a name within [size used] iterations: every iteration
    that goes on has met another element of [used]. *)
Lemma ensureUnique_loop_total fuel : ∀ name used n i (S : gset str),
  (n ∈ used → n ∈ S) →
  (∀ j, (i ≤ j)%N → name ++ decimal j ∈ used → name ++ decimal j ∈ S) →
  (∀ j, (i ≤ j)%N → n ≠ name ++ decimal j) →
  (size S ≤ fuel)%nat →
  is_Some (ensureUnique_loop fuel name used n i).
Proof.
  induction fuel as [|fuel IH]; intros name used n i S Hn Hc Hd Hs;
    cbn [ensureUnique_loop]; case_bool_decide as Hin; try done.
  - apply Hn in Hin. assert (size S ≠ 0)%nat; [|lia].
    intros Hz. apply size_empty_inv in Hz. set_solver.
  - apply (IH name used _ _ (S ∖ {[ n ]})).
    + intros H. apply elem_of_difference. split; [apply Hc; [lia|done]|].
      apply not_elem_of_singleton. intros E. by apply (Hd i); [lia|].
    + intros j Hj H. apply elem_of_difference. split; [apply Hc; [lia|done]|].
      apply not_elem_of_singleton. intros E. by apply (Hd j); [lia|].
    + intros j Hj E. apply suffixed_inj in E. lia.
    + apply Hn in Hin.
      assert (size S = size ({[ n ]} ∪ S ∖ {[ n ]})) as Hsz.
      { f_equal. apply set_eq. intros x. rewrite elem_of_union, elem_of_difference,
          elem_of_singleton. destruct (decide (x = n)); naive_solver. }
      rewrite size_union in Hsz by set_solver. rewrite size_singleton in Hsz. lia.
Qed.

(** What the loop returns when it returns. *)
Lemma ensureUnique_loop_spec fuel : ∀ name used n i r,
  ensureUnique_loop fuel name used n i = Some r →
  (r ∉ used)
  ∧ (((n ∉ used) ∧ r = n)
     ∨ ((n ∈ used) ∧ ∃ k, (i ≤ k)%N ∧ r = name ++ decimal k
          ∧ ∀ j, (i ≤ j < k)%N → name ++ decimal j ∈ used)).
Proof.
  induction fuel as [|fuel IH]; intros name used n i r;
    cbn [ensureUnique_loop]; case_bool_decide as Hin.
  - done.
  - intros [= <-]. split; [done|]. by left.
  - intros H. apply IH in H as (Hr & [(Hn' & ->) | (Hn' & k & Hk & -> & Hall)]).
    + split; [done|]. right. split; [done|]. exists i. split; [lia|]. split; [done|].
      intros j Hj. lia.
    + split; [done|]. right. split; [done|]. exists k. split; [lia|]. split; [done|].
      intros j Hj. destruct (decide (j = i)) as [->|]; [done|]. apply Hall. lia.
  - intros [= <-]. split; [done|]. by left.
Qed.

(** [ensureUnique] always returns, follows the collision policy and adds the
    returned name to the set. *)
Lemma ensureUnique_spec name used :
  ∃ n, ensureUnique name used = Some (n, {[ n ]} ∪ used)
       ∧ collision_policy name used n.
Proof.
  unfold ensureUnique.
  destruct (ensureUnique_loop_total (size used) name used name 2 used) as [n Hn];
    [done | done | intros j _; apply suffixed_ne | done |].
  rewrite Hn. exists n. split; [done|].
  apply ensureUnique_loop_spec in Hn as (Hr & [(? & ->) | (? & k & ? & -> & ?)]).
  - split; [done|]. by left.
  - split; [done|]. right. split; [done|]. by exists k.
Qed.

(** A run of the allocator: results, freshness and final set. *)
Lemma ensureUnique_all_spec (names : list str) (used : gset str) :
  ∃ outs used', ensureUnique_all names used = Some (outs, used')
    ∧ NoDup outs
    ∧ (∀ o, o ∈ outs → o ∉ used)
    ∧ used' = list_to_set outs ∪ used
    ∧ collision_policy_all names outs used.
Proof.
  revert used. induction names as [|name names IH]; intros used.
  { exists [], used. cbn. repeat split; [constructor | set_solver | set_solver]. }
  destruct (ensureUnique_spec name used) as (n & Hn & Hpol).
  destruct (IH ({[ n ]} ∪ used)) as (outs & used' & Hall & Hnd & Hfresh & Hused & Hpols).
  exists (n :: outs), used'. cbn [ensureUnique_all]. rewrite Hn, Hall.
  split; [done|]. split; [|split; [|split]].
  - constructor; [|done]. intros Hin. apply Hfresh in Hin. set_solver.
  - intros o Ho. apply elem_of_cons in Ho as [-> | Ho].
    + apply Hpol.
    + apply Hfresh in Ho. set_solver.
  - rewrite Hused. cbn [list_to_set]. set_solver.
  - by split.
Qed.

(** C5.  In every run of allocator calls on one shared set, each call
    returns; the returned identifiers are pairwise distinct and were not in
    the set before; each follows the collision policy (the name itself, or
    the name with the least unused integer suffix from 2 on); and the set
    ends up holding every returned name. *)
Theorem ensureUnique_all_distinct (names : list str) (used : gset str) :
  ∃ outs used', ensureUnique_all names used = Some (outs, used')
    ∧ NoDup outs
    ∧ (∀ o, o ∈ outs → o ∉ used)
    ∧ used' = list_to_set outs ∪ used
    ∧ collision_policy_all names outs used.
Proof. apply ensureUnique_all_spec. Qed.

(** ** Identifiers and keys of the generator *)

Lemma is_ident_start_char c : is_ident_start c = true → is_ident_char c = true.
Proof. destruct c as [[] [] [] [] [] [] [] []]; vm_compute; congruence. Qed.

Lemma is_digit_ident_char c : is_digit c = true → is_ident_char c = true.
Proof. destruct c as [[] [] [] [] [] [] [] []]; vm_compute; congruence. Qed.

(** [toValidIdentifier] returns an identifier, whatever it is given. *)
Lemma toValidIdentifier_valid s : valid_identifier (toValidIdentifier s).
Proof.
  unfold toValidIdentifier.
  set (f := λ c, if is_ident_char c then c else ch_underscore).
  assert (F : Forall (λ d, is_ident_char d = true) (map f s)).
  { apply Forall_forall. intros d Hd. apply list_elem_of_fmap in Hd as (c & -> & _).
    unfold f. by destruct (is_ident_char c) eqn:E. }
  destruct (map f s) as [|c rest] eqn:E.
  - by split.
  - destruct (is_ident_start c) eqn:Ec.
    + split; [done|]. by inversion F.
    + by split.
Qed.

Lemma valid_identifier_app n d :
  valid_identifier n → Forall (λ c, is_digit c = true) d → valid_identifier (n ++ d).
Proof.
  destruct n as [|c n]; [done|]. intros [Hc Hn] Hd. split; [done|].
  apply Forall_app. split; [done|].
  eapply Forall_impl; [exact Hd|]. apply is_digit_ident_char.
Qed.

Lemma valid_identifier_nonempty n : valid_identifier n → n ≠ [].
Proof. by destruct n. Qed.

Lemma candidate_valid rel : valid_identifier (candidate rel).
Proof.
  unfold candidate, varBaseOf.
  match goal with |- context [toValidIdentifier ?x] =>
    pose proof (toValidIdentifier_valid x) as H; destruct (toValidIdentifier x) end;
    [done|]. exact H.
Qed.

(** The allocator keeps identifiers valid: it appends digits only. *)
Lemma ensureUnique_valid name used n used' :
  valid_identifier name → ensureUnique name used = Some (n, used') →
  valid_identifier n.
Proof.
  intros Hv H. destruct (ensureUnique_spec name used) as (n' & Hn' & Hpol).
  rewrite Hn' in H. injection H as <- <-.
  destruct Hpol as (_ & [(_ & ->) | (_ & k & _ & -> & _)]); [done|].
  apply valid_identifier_app; [done|]. apply decimal_digits.
Qed.









(** C8.  [My Photo.PNG] under kebab-case becomes [my-photo.PNG]: the base
    name is kebab-cased and the extension keeps its letter case.  The walker
    lists the renamed file, its leaf key in the manifest is [myPhoto], and the
    generated module binds that key to the identifier imported from the
    renamed file. *)
Theorem my_photo_scenario :
  convertImageName (lit "My Photo.PNG") KebabCase = lit "my-photo.PNG"
  ∧ path.extname (lit "my-photo.PNG") = path.extname (lit "My Photo.PNG")
  ∧ rename_map_of
      (renameImagesInDirectory (lit "/app/assets")
         [File (lit "My Photo.PNG") []] KebabCase)
    = Some [(lit "/app/assets/My Photo.PNG", lit "/app/assets/my-photo.PNG")]
  ∧ walk (lit "/app/assets") [File (lit "my-photo.PNG") []]
    = [lit "/app/assets/my-photo.PNG"]
  ∧ keysPathOf (lit "my-photo.PNG") = [lit "myPhoto"]
  ∧ generateImageIndex (mkConfig ViteReact None (lit "images") false)
      (λ _, Throw (Error [])) [lit "my-photo.PNG"] []
    = Written
        (mkModule
           [lit "import myPhoto from " ++ JSON_stringify (lit "./my-photo.PNG")
              ++ lit ";"]
           (JObj [(lit "myPhoto", JStr (lit "myPhoto"))])).
Proof. repeat split; vm_compute; reflexivity. Qed.

(** ** Allocation order *)


(** The loop over a listing is a run of the allocator on the candidate names
    of the files, in listing order. *)
Lemma allocate_all_run files : ∀ used,
  ∃ ids used', allocate_all files used = Some (ids, used')
    ∧ map fst ids = files
    ∧ ensureUnique_all (map candidate files) used = Some (map snd ids, used').
Proof.
  induction files as [|f files IH]; intros used.
  { by exists [], used. }
  cbn [allocate_all map ensureUnique_all]. unfold allocate. fold (candidate f).
  destruct (ensureUnique_spec (candidate f) used) as (n & Hn & _). rewrite Hn.
  destruct (IH ({[ n ]} ∪ used)) as (ids & used' & Hall & Hfst & Hrun).
  rewrite Hall, Hrun. exists ((f, n) :: ids), used'. cbn. by rewrite Hfst.
Qed.

(** The generator's loop over the base files allocates exactly these
    identifiers and declares them in listing order. *)
Lemma for_each_base_allocates pt files : ∀ st st',
  pt ≠ ReactNativeCli →
  for_each (add_base_file pt) files st = Ok st' →
  ∃ ids, allocate_all files (usedVarNames st) = Some (ids, usedVarNames st')
    ∧ imports st' = imports st ++ map import_declaration ids.
Proof.
  induction files as [|f files IH]; intros st st' Hpt H.
  { injection H as <-. exists []. by rewrite app_nil_r. }
  cbn [for_each] in H.
  destruct (add_base_file pt f st) as [st1| |] eqn:Hs; [|done..].
  change (for_each (add_base_file pt) files st1 = Ok st') in H.
  apply IH in H as (ids & Hall & Himp); [|done].
  assert (∃ varName, allocate f (usedVarNames st) = Some (varName, usedVarNames st1)
            ∧ imports st1 = imports st ++ [import_declaration (f, varName)])
    as (varName & Ha & Hi).
  { unfold add_base_file in Hs. destruct pt; [|done|];
      (destruct (allocate f (usedVarNames st)) as [[varName used']|]; [|done];
       destruct (setInTree _ _ _) as [tree'| |]; cbn in Hs; [|done..];
       injection Hs as <-; by exists varName). }
  cbn [allocate_all]. rewrite Ha, Hall. exists ((f, varName) :: ids). split; [done|].
  rewrite Himp, Hi. cbn [map]. by rewrite <- app_assoc.
Qed.




(** ** Duplicate detection *)

Lemma elem_of_js_set_go (x : str) (l : list str) : ∀ acc : list str,
  x ∈ fold_left (λ acc y, if bool_decide (y ∈ acc) then acc else acc ++ [y]) l acc
  ↔ x ∈ acc ∨ x ∈ l.
Proof.
  induction l as [|y l IH]; intros acc; cbn [fold_left].
  { rewrite elem_of_nil. tauto. }
  rewrite IH, elem_of_cons. case_bool_decide as Hy.
  - split; [tauto|]. intros [?|[->|?]]; tauto.
  - rewrite elem_of_app, list_elem_of_singleton. tauto.
Qed.

Lemma elem_of_js_set (x : str) (l : list str) : x ∈ js_set l ↔ x ∈ l.
Proof. unfold js_set. rewrite elem_of_js_set_go, elem_of_nil. tauto. Qed.

(** C3 (as amended).  The unit of comparison of the duplicate check is the
    root-relative path with its extension.  When the public directory is
    scanned, generation stops with the list of duplicates, and writes
    nothing, exactly when some relative path occurs under both roots; every
    such path is in the list. *)
Theorem duplicate_overlap (cfg : gen_config)
    (sizeOf : str → outcome (option N * option N))
    (baseFiles publicWalk : list str) (Hactive : public_scan_active cfg) :
  (∀ name, name ∈ baseFiles → name ∈ publicWalk →
     ∃ dups, generateImageIndex cfg sizeOf baseFiles publicWalk = ExitDuplicates dups
             ∧ name ∈ dups)
  ∧ (∀ dups, generateImageIndex cfg sizeOf baseFiles publicWalk = ExitDuplicates dups →
       dups ≠ [] ∧ ∀ name, name ∈ dups ↔ name ∈ baseFiles ∧ name ∈ publicWalk).
Proof.
  destruct Hactive as (Hpt & (d & Hd & Hne) & Hex).
  unfold generateImageIndex. rewrite Hpt, Hd, Hex.
  rewrite bool_decide_eq_false_2 by done. cbn [negb andb].
  set (dups := List.filter _ (js_set baseFiles)).
  assert (Hdups : ∀ name, name ∈ dups ↔ name ∈ baseFiles ∧ name ∈ publicWalk).
  { intros name. subst dups.
    rewrite list_elem_of_In, filter_In, <- list_elem_of_In, elem_of_js_set.
    rewrite bool_decide_eq_true, elem_of_js_set. tauto. }
  split.
  - intros name Hb Hp. assert (Hin : name ∈ dups) by (by apply Hdups).
    destruct dups as [|x dups']; [by apply elem_of_nil in Hin|]. eauto.
  - intros dups0 H. destruct dups as [|x dups'] eqn:E.
    + destruct (for_each _ baseFiles _) as [st| |]; cbn in H; [|done..].
      destruct (for_each _ publicWalk st); done.
    + injection H as <-. split; [done|]. exact Hdups.
Qed.

Lemma duplicate_overlap_witness :
  let cfg := mkConfig NextJs (Some (lit "public")) (lit "images") true in
  public_scan_active cfg
  ∧ ∃ dups,
      generateImageIndex cfg (λ _, Ok (Some 128%N, Some 64%N))
        [lit "images/logo.png"] [lit "images/logo.png"] = ExitDuplicates dups
      ∧ lit "images/logo.png" ∈ dups.
Proof.
  assert (H : public_scan_active (mkConfig NextJs (Some (lit "public")) (lit "images") true)).
  { split; [done|]. split; [|done]. by exists (lit "public"). }
  split; [exact H|].
  apply (proj1 (duplicate_overlap _ (λ _, Ok (Some 128%N, Some 64%N))
                  [lit "images/logo.png"] [lit "images/logo.png"] H));
    apply list_elem_of_singleton; reflexivity.
Defined.

(** C3, counterexample.  [images/logo.png] under the primary root and
    [images/logo.jpg] under the public root have the same RelativeKeyPath;
    generation does not stop: the module is written, and the leaf of the
    public file has replaced the leaf of the primary one. *)
Lemma duplicate_overlap_counterexample :
  let cfg := mkConfig NextJs (Some (lit "public")) (lit "images") true in
  spec_RelativeKeyPath (lit "images/logo.png")
    = spec_RelativeKeyPath (lit "images/logo.jpg")
  ∧ ∃ decls,
      generateImageIndex cfg (λ _, Ok (Some 128%N, Some 64%N))
        [lit "images/logo.png"] [lit "images/logo.jpg"]
      = Written (mkModule decls
                   (JObj [(lit "images", JObj [(lit "logo", JStr (lit "images_logo2"))])])).
Proof. split; [reflexivity|]. eexists. vm_compute. reflexivity. Qed.

(** ** Manifest tree *)

Lemma obj_get_update_eq props k v :
  is_Some (obj_get props k) → obj_get (obj_update props k v) k = Some v.
Proof.
  induction props as [|[k' v'] props IH]; cbn; [by intros [? ?]|].
  case_bool_decide as E; cbn.
  - intros _. by rewrite bool_decide_eq_true_2.
  - intros H. rewrite bool_decide_eq_false_2 by done. by apply IH.
Qed.

Lemma obj_get_update_ne props k k' v :
  k' ≠ k → obj_get (obj_update props k v) k' = obj_get props k'.
Proof.
  intros Hne. induction props as [|[k0 v0] props IH]; cbn; [done|].
  case_bool_decide as E; cbn.
  - subst k0. by rewrite !bool_decide_eq_false_2 by done.
  - case_bool_decide; [done|]. exact IH.
Qed.

Lemma obj_get_insert_index_eq props n k v :
  obj_get props k = None → obj_get (obj_insert_index props n k v) k = Some v.
Proof.
  induction props as [|[k0 v0] props IH]; cbn.
  { by rewrite bool_decide_eq_true_2. }
  case_bool_decide as E; [done|]. intros Hnone.
  destruct (array_index k0) as [m|]; [destruct (m <? n)%N|]; cbn.
  - rewrite bool_decide_eq_false_2 by done. by apply IH.
  - by rewrite bool_decide_eq_true_2.
  - by rewrite bool_decide_eq_true_2.
Qed.

Lemma obj_get_insert_index_ne props n k k' v :
  k' ≠ k → obj_get (obj_insert_index props n k v) k' = obj_get props k'.
Proof.
  intros Hne. induction props as [|[k0 v0] props IH]; cbn.
  { by rewrite bool_decide_eq_false_2. }
  destruct (array_index k0) as [m|]; [destruct (m <? n)%N|]; cbn.
  - case_bool_decide; [done|]. exact IH.
  - by rewrite (bool_decide_eq_false_2 (k = k')).
  - by rewrite (bool_decide_eq_false_2 (k = k')).
Qed.

Lemma obj_get_app props k (v : jsval) k' :
  obj_get (props ++ [(k, v)]) k' =
  match obj_get props k' with
  | Some w => Some w
  | None => if bool_decide (k = k') then Some v else None
  end.
Proof.
  induction props as [|[k0 v0] props IH]; cbn.
  { by case_bool_decide. }
  destruct (bool_decide (k0 = k')); [done | exact IH].
Qed.

(** Reading back what [obj[k] = v] has stored. *)
Lemma obj_get_set_eq props k v : obj_get (obj_set props k v) k = Some v.
Proof.
  unfold obj_set. destruct (obj_get props k) as [w|] eqn:E.
  - apply obj_get_update_eq. by rewrite E.
  - destruct (array_index k) as [n|].
    + by apply obj_get_insert_index_eq.
    + rewrite obj_get_app, E. by rewrite bool_decide_eq_true_2.
Qed.

Lemma obj_get_set_ne props k k' v :
  k' ≠ k → obj_get (obj_set props k v) k' = obj_get props k'.
Proof.
  intros Hne. unfold obj_set. destruct (obj_get props k) as [w|] eqn:E.
  - by apply obj_get_update_ne.
  - destruct (array_index k) as [n|].
    + by apply obj_get_insert_index_ne.
    + rewrite obj_get_app. destruct (obj_get props k'); [done|].
      by rewrite bool_decide_eq_false_2.
Qed.

Lemma strip_outside_Forall cls s : Forall (λ c, cls c = true) (strip_outside cls s).
Proof.
  unfold strip_outside. apply Forall_forall. intros c Hc.
  apply list_elem_of_In, filter_In in Hc. by destruct Hc.
Qed.

(** A leaf key of the generator is never the accessor [__proto__]. *)
Lemma leaf_key_not_proto s : or_else (toCamel s) (lit "image") ≠ lit "__proto__".
Proof.
  destruct (toCamel s) as [|c r] eqn:E; [done|]. cbn [or_else]. intros H.
  pose proof (strip_outside_Forall is_alnum (lower_first (camel_runs false s))) as F.
  fold (toCamel s) in F. rewrite E, H in F. by inversion F.
Qed.

Lemma setInTree_descent_eq node a b p l :
  setInTree node (a :: b :: p) l =
  match node with
  | JObj props =>
      match obj_get props a with
      | Some child =>
          bind_outcome
            (setInTree (if truthy child then child else JObj []) (b :: p) l)
            (λ child', Ok (JObj (obj_update props a child')))
      | None =>
          if inherited a then Unmodelled
          else bind_outcome (setInTree (JObj []) (b :: p) l)
                 (λ child', Ok (JObj (obj_set props a child')))
      end
  | JStr _ | JArr _ => Unmodelled
  | JNull => Throw TypeError
  end.
Proof. reflexivity. Qed.

(** What [setInTree] returns is an object. *)
Lemma setInTree_object n p l r : setInTree n p l = Ok r → ∃ ps, r = JObj ps.
Proof.
  intros Hr. destruct p as [|a [|b p]].
  - destruct n; cbn in Hr; try done. case_bool_decide; [done|].
    injection Hr as <-. eauto.
  - destruct n; cbn in Hr; try done. case_bool_decide; [done|].
    injection Hr as <-. eauto.
  - rewrite setInTree_descent_eq in Hr. destruct n as [|?|?|ps]; try done.
    destruct (obj_get ps a) as [child|].
    + destruct (setInTree _ (b :: p) l); cbn in Hr; [|done..].
      injection Hr as <-. eauto.
    + destruct (inherited a); [done|].
      destruct (setInTree _ (b :: p) l); cbn in Hr; [|done..].
      injection Hr as <-. eauto.
Qed.

(** A successful descent through [key] leaves an object under [key]. *)
Lemma setInTree_descend node key sub leaf t :
  sub ≠ [] → setInTree node (key :: sub) leaf = Ok t →
  ∃ props subtree, t = JObj props ∧ obj_get props key = Some (JObj subtree).
Proof.
  intros Hsub H. destruct sub as [|part sub]; [done|].
  rewrite setInTree_descent_eq in H. destruct node as [|?|?|props]; try done.
  destruct (obj_get props key) as [child|] eqn:Eg.
  - destruct (setInTree _ (part :: sub) leaf) as [child'| |] eqn:Ec; cbn in H; [|done..].
    injection H as <-. apply setInTree_object in Ec as [ps ->].
    exists (obj_update props key (JObj ps)), ps. split; [done|].
    apply obj_get_update_eq. by rewrite Eg.
  - destruct (inherited key); [done|].
    destruct (setInTree _ (part :: sub) leaf) as [child'| |] eqn:Ec; cbn in H; [|done..].
    injection H as <-. apply setInTree_object in Ec as [ps ->].
    exists (obj_set props key (JObj ps)), ps. split; [done|]. apply obj_get_set_eq.
Qed.

(** C9 (as amended).  When a directory name and a file base name give the
    same key at one level of the tree and the file is inserted after the
    directory, the file's leaf replaces the subtree of the directory, without
    error, and the other keys of that level are left as they were. *)
Theorem file_after_directory_overwrites (dirName fileBase : str)
    (node t1 : jsval) (sub : list str) (dirLeaf fileLeaf : str)
    (Hkey : toCamel dirName = or_else (toCamel fileBase) (lit "image"))
    (Hsub : sub ≠ [])
    (Hdir : setInTree node (toCamel dirName :: sub) dirLeaf = Ok t1) :
  ∃ props1 subtree props2,
    t1 = JObj props1
    ∧ obj_get props1 (toCamel dirName) = Some (JObj subtree)
    ∧ setInTree t1 [or_else (toCamel fileBase) (lit "image")] fileLeaf
      = Ok (JObj props2)
    ∧ obj_get props2 (toCamel dirName) = Some (JStr fileLeaf)
    ∧ ∀ k, k ≠ toCamel dirName → obj_get props2 k = obj_get props1 k.
Proof.
  destruct (setInTree_descend _ _ _ _ _ Hsub Hdir) as (props1 & subtree & -> & Hget).
  exists props1, subtree, (obj_set props1 (toCamel dirName) (JStr fileLeaf)).
  split; [done|]. split; [done|]. rewrite <- Hkey. split.
  - cbn. rewrite bool_decide_eq_false_2; [done|].
    rewrite Hkey. apply leaf_key_not_proto.
  - split; [apply obj_get_set_eq|]. intros k Hk. by apply obj_get_set_ne.
Qed.

Lemma file_after_directory_overwrites_witness :
  ∃ t1 : jsval,
    setInTree (JObj []) (toCamel (lit "foo") :: [lit "bar"]) (lit "foo_bar") = Ok t1
    ∧ ∃ props1 subtree props2,
        t1 = JObj props1
        ∧ obj_get props1 (toCamel (lit "foo")) = Some (JObj subtree)
        ∧ setInTree t1 [or_else (toCamel (lit "foo")) (lit "image")] (lit "foo")
          = Ok (JObj props2)
        ∧ obj_get props2 (toCamel (lit "foo")) = Some (JStr (lit "foo"))
        ∧ ∀ k, k ≠ toCamel (lit "foo") → obj_get props2 k = obj_get props1 k.
Proof.
  eexists. split; [reflexivity|].
  apply (file_after_directory_overwrites (lit "foo") (lit "foo") (JObj [])
           _ [lit "bar"] (lit "foo_bar") (lit "foo")); [reflexivity | discriminate | reflexivity].
Defined.

(** C9, counterexample.  [foo.png] inserted before [foo/bar.png]: the key
    [foo] holds the leaf of the file, a string; the assignment of the
    property [bar] on that string throws, the leaf stays and the generator
    stops in its [catch] block. *)
Lemma directory_after_file_counterexample :
  keysPathOf (lit "foo.png") = [lit "foo"]
  ∧ keysPathOf (lit "foo/bar.png") = [lit "foo"; lit "bar"]
  ∧ setInTree (JObj []) [lit "foo"] (lit "foo")
    = Ok (JObj [(lit "foo", JStr (lit "foo"))])
  ∧ setInTree (JObj [(lit "foo", JStr (lit "foo"))]) [lit "foo"; lit "bar"]
      (lit "foo_bar")
    = Throw TypeError
  ∧ generateImageIndex (mkConfig ViteReact None (lit "images") false)
      (λ _, Throw (Error [])) [lit "foo.png"; lit "foo/bar.png"] []
    = ExitError TypeError.
Proof. repeat split; vm_compute; reflexivity. Qed.

(** The sorting pass returns values that are not plain objects as they
    are. *)
Lemma sortObjectKeysDeep_non_object v :
  (∀ props, v ≠ JObj props) → sortObjectKeysDeep v = v.
Proof. intros H. destruct v; try reflexivity. by destruct (H props). Qed.

(** C7, the code at the failing input.  For the files [9.png] and [10.png]
    the sorted tree lists, and [objectToTS] prints, the key [9] before the
    key [10]: array-index keys are enumerated in numeric order whatever the
    order of insertion, and [10] comes before [9] in lexicographic order.
    Leaves and arrays are returned unchanged. *)
Theorem sorted_tree_numeric_keys :
  (∃ decls props,
     generateImageIndex (mkConfig ViteReact None (lit "images") false)
       (λ _, Throw (Error [])) [lit "9.png"; lit "10.png"] []
     = Written (mkModule decls (JObj props))
     ∧ obj_keys props = [lit "9"; lit "10"]
     ∧ objectToTS (JObj props) 0
       = lit "{" ++ [ascii_of_N 10]
         ++ lit "  " ++ JSON_stringify (lit "9") ++ lit ": _9," ++ [ascii_of_N 10]
         ++ lit "  " ++ JSON_stringify (lit "10") ++ lit ": _10" ++ [ascii_of_N 10]
         ++ lit "}"
     ∧ js_sort (obj_keys props) = [lit "10"; lit "9"]
     ∧ ¬ keys_sorted props)
  ∧ sortObjectKeysDeep
      (JObj [(lit "b", JStr (lit "x")); (lit "10", JStr (lit "y"));
             (lit "a", JArr [JObj [(lit "z", JNull); (lit "y", JNull)]]);
             (lit "9", JStr (lit "z"))])
    = JObj [(lit "9", JStr (lit "z")); (lit "10", JStr (lit "y"));
            (lit "a", JArr [JObj [(lit "z", JNull); (lit "y", JNull)]]);
            (lit "b", JStr (lit "x"))].
Proof.
  split; [|vm_compute; reflexivity].
  eexists _, _. split; [vm_compute; reflexivity|].
  split; [reflexivity|]. split; [vm_compute; reflexivity|].
  split; [vm_compute; reflexivity|].
  unfold keys_sorted. cbn. intros H. inversion H as [|? ? _ Hd]; subst.
  inversion Hd as [|? ? Hle]; subst. vm_compute in Hle. discriminate.
Qed.

(** ** Rename engine *)






(** The existence check at work on a directory. *)
Lemma rename_collision_detected :
  renameImagesInDirectory (lit "/app/img")
    [File (lit "a b.png") (lit "first"); File (lit "a_b.png") (lit "second")]
    KebabCase
  = Throw (Error (lit "Cannot rename a_b.png to a-b.png: target file already exists")).
Proof. vm_compute. reflexivity. Qed.

(** C4, the code at the failing input.  [A B.png] is renamed to [a-b.png];
    then [A-B.png], which differs from [a-b.png] by letter case only, passes
    the existence check and is renamed onto it.  The rename map sends two
    distinct original paths to one new path. *)
Theorem rename_map_duplicate_destination :
  let run :=
    renameImagesInDirectory (lit "/app/img")
      [File (lit "A B.png") (lit "first"); File (lit "A-B.png") (lit "second")]
      KebabCase in
  rename_map_of run
  = Some [(lit "/app/img/A B.png", lit "/app/img/a-b.png");
          (lit "/app/img/A-B.png", lit "/app/img/a-b.png")]
  ∧ node_after run (lit "/app/img/a-b.png") = Some (FFile (lit "second"))
  ∧ ∃ renameMap, rename_map_of run = Some renameMap
      ∧ ¬ no_duplicate_destinations renameMap.
Proof.
  split; [vm_compute; reflexivity|]. split; [vm_compute; reflexivity|].
  eexists. split; [vm_compute; reflexivity|].
  intros H.
  specialize (H (lit "/app/img/A B.png") (lit "/app/img/A-B.png") (lit "/app/img/a-b.png")).
  assert (E : lit "/app/img/A B.png" = lit "/app/img/A-B.png"); [|discriminate E].
  apply H.
  - apply elem_of_cons. by left.
  - apply elem_of_cons. right. apply elem_of_cons. by left.
Qed.

(** ** The sorting pass on trees without array-index keys *)

Lemma str_leb_total a : ∀ b, str_leb a b = true ∨ str_leb b a = true.
Proof.
  induction a as [|c a IH]; intros [|d b]; cbn; auto.
  destruct (N.ltb_spec (code c) (code d)); [by left|].
  destruct (N.ltb_spec (code d) (code c)); [by right|].
  destruct (N.eqb_spec (code c) (code d)); [|lia].
  destruct (N.eqb_spec (code d) (code c)); [|lia]. apply IH.
Qed.

Lemma str_leb_trans a : ∀ b c,
  str_leb a b = true → str_leb b c = true → str_leb a c = true.
Proof.
  induction a as [|x a IH]; intros [|y b] [|z c]; cbn; try done.
  destruct (N.ltb_spec (code x) (code y)), (N.ltb_spec (code y) (code z)),
    (N.ltb_spec (code x) (code z)); try done;
    destruct (N.eqb_spec (code x) (code y)), (N.eqb_spec (code y) (code z)),
      (N.eqb_spec (code x) (code z)); try done; try lia.
  apply IH.
Qed.

Global Instance str_le_total : Total str_le.
Proof. intros a b. apply str_leb_total. Qed.

Global Instance str_le_trans : Transitive str_le.
Proof. intros a b c. apply str_leb_trans. Qed.

Lemma every_mapping_obj P props :
  every_mapping P (JObj props)
  ↔ P props ∧ Forall (λ kv, every_mapping P kv.2) props.
Proof.
  cbn [every_mapping]. apply and_iff_compat_l.
  induction props as [|kv props IH]; cbn [fold_right].
  - split; [constructor|done].
  - rewrite Forall_cons, IH. done.
Qed.

(** Induction on trees, with the hypothesis for every property value. *)
Lemma jsval_deep_ind (P : jsval → Prop) :
  P JNull → (∀ s, P (JStr s)) → (∀ items, P (JArr items)) →
  (∀ props, Forall (λ kv, P kv.2) props → P (JObj props)) →
  ∀ v, P v.
Proof.
  intros HN HS HA HO. fix IH 1. intros [|s|items|props]; [done..|].
  apply HO. induction props as [|[k v] props IHp]; constructor; [apply IH | exact IHp].
Qed.

Lemma obj_keys_update props k v : obj_keys (obj_update props k v) = obj_keys props.
Proof.
  unfold obj_keys. induction props as [|[k0 v0] props IH]; [done|]. cbn.
  case_bool_decide; cbn; [done|]. by rewrite IH.
Qed.

Lemma obj_get_Some_key props k v : obj_get props k = Some v → (k, v) ∈ props.
Proof.
  induction props as [|[k0 v0] props IH]; cbn; [done|].
  case_bool_decide as E.
  - intros [= <-]. subst. apply elem_of_cons. by left.
  - intros H. apply elem_of_cons. right. by apply IH.
Qed.

Lemma Forall_obj_update (Q : jsval → Prop) props k v :
  Forall (λ kv, Q kv.2) props → Q v → Forall (λ kv, Q kv.2) (obj_update props k v).
Proof.
  intros F Hv. induction F as [|[k0 v0] props H0 F IH]; [constructor|]. cbn.
  case_bool_decide; constructor; done.
Qed.

(** One step of the loop of the sorting pass, for a key that is not an array
    index: the first assignment to a key appends it, a later one keeps the
    list of keys. *)
Lemma sort_step_keys (Q : jsval → Prop) sorted key v :
  array_index key = None → Forall (λ kv, Q kv.2) sorted → Q v →
  (obj_keys (obj_set sorted key v) = obj_keys sorted
   ∨ obj_keys (obj_set sorted key v) = obj_keys sorted ++ [key])
  ∧ Forall (λ kv, Q kv.2) (obj_set sorted key v).
Proof.
  intros Hidx F Hv. unfold obj_set. destruct (obj_get sorted key) as [w|].
  - split; [left; apply obj_keys_update | by apply Forall_obj_update].
  - rewrite Hidx. split.
    + right. unfold obj_keys. by rewrite map_app.
    + apply Forall_app. split; [done|]. by repeat constructor.
Qed.

Lemma StronglySorted_app_drop {A} (R : relation A) l1 x l2 :
  StronglySorted R (l1 ++ x :: l2) → StronglySorted R (l1 ++ l2).
Proof.
  induction l1 as [|y l1 IH]; cbn.
  - by inversion 1.
  - inversion 1 as [|? ? Hs Hall]; subst. constructor; [by apply IH|].
    apply Forall_app in Hall as [H1 H2]. apply Forall_app. split; [done|].
    by inversion H2.
Qed.

Section SortLoop.
Variable Q : jsval → Prop.
Variable values : list (str * jsval).
Hypothesis values_ok : Forall (λ kv, Q kv.2) values.

(** The loop [for (const key of Object.keys(obj).sort())]. *)
Lemma sort_loop_sorted keys : ∀ sorted,
  Forall (λ k, array_index k = None) keys →
  Forall (λ kv, Q kv.2) sorted →
  StronglySorted str_le (obj_keys sorted ++ keys) →
  let result :=
    fold_left
      (λ sorted key,
         match obj_get values key with
         | Some v =>
             if bool_decide (key = lit "__proto__") then sorted
             else obj_set sorted key v
         | None => sorted
         end) keys sorted in
  StronglySorted str_le (obj_keys result) ∧ Forall (λ kv, Q kv.2) result.
Proof.
  induction keys as [|key keys IH]; intros sorted Hidx F Hs; cbn [fold_left].
  { rewrite app_nil_r in Hs. by split. }
  inversion Hidx as [|? ? Hk Hks]; subst.
  destruct (obj_get values key) as [v|] eqn:Eg.
  2:{ apply IH; [done..|]. by eapply StronglySorted_app_drop. }
  case_bool_decide as Ep.
  { apply IH; [done..|]. by eapply StronglySorted_app_drop. }
  assert (Hv : Q v).
  { apply obj_get_Some_key in Eg.
    rewrite Forall_forall in values_ok. exact (values_ok _ Eg). }
  destruct (sort_step_keys Q sorted key v Hk F Hv) as [[Hkeys | Hkeys] F'].
  - apply IH; [done..|]. rewrite Hkeys. by eapply StronglySorted_app_drop.
  - apply IH; [done..|]. rewrite Hkeys, <- app_assoc. exact Hs.
Qed.
End SortLoop.

(** On a tree without array-index keys the sorting pass does what its name
    says: every mapping of the result, at every depth, lists its keys in
    lexicographic order. *)
Lemma sortObjectKeysDeep_sorted v :
  every_mapping no_index_key v →
  every_mapping keys_sorted (sortObjectKeysDeep v).
Proof.
  induction v as [|s|items|props IH] using jsval_deep_ind; [done..|].
  rewrite every_mapping_obj. intros [Hidx Hsub].
  cbn [sortObjectKeysDeep].
  set (values := map (λ kv, match kv with (k, v) => (k, sortObjectKeysDeep v) end) props).
  assert (Hvalues : Forall (λ kv, every_mapping keys_sorted kv.2) values).
  { subst values. clear Hidx. induction props as [|[k v] props IHp]; [constructor|].
    inversion IH; inversion Hsub; subst. constructor; [cbn; auto|auto]. }
  destruct (sort_loop_sorted (every_mapping keys_sorted) values Hvalues
              (js_sort (obj_keys props)) []) as [Hs F].
  - unfold js_sort. unfold no_index_key in Hidx.
    rewrite Forall_forall in Hidx. apply Forall_forall. intros k Hk.
    apply Hidx. by rewrite <- (merge_sort_Permutation str_le).
  - constructor.
  - cbn. apply StronglySorted_merge_sort; apply _.
  - apply every_mapping_obj. split; [|done].
    unfold keys_sorted. by apply StronglySorted_Sorted.
Qed.

(** * Part IV: further properties of the code *)

(** ** Name normalizer *)

(** X1.  [toKebabCase] returns, for every input, a string of lower-case
    letters, digits and single dashes that neither starts nor ends with a
    dash, and a second application changes nothing. *)
Theorem toKebabCase_normal_form (s : str) :
  Forall (λ c, is_kebab_char c = true) (toKebabCase s)
  ∧ no_double ch_dash (toKebabCase s)
  ∧ head (toKebabCase s) ≠ Some ch_dash
  ∧ last (toKebabCase s) ≠ Some ch_dash
  ∧ toKebabCase (toKebabCase s) = toKebabCase s.
Proof.
  destruct (toKebabCase_normal s) as (F & ND & HD & LS).
  repeat split; try done. apply toKebabCase_fixed, toKebabCase_normal.
Qed.

(** X2.  [toSnakeCase] returns, for every input, a string of lower-case
    letters, digits and single underscores that neither starts nor ends with
    an underscore, and a second application changes nothing. *)
Theorem toSnakeCase_normal_form (s : str) :
  Forall (λ c, is_snake_char c = true) (toSnakeCase s)
  ∧ no_double ch_underscore (toSnakeCase s)
  ∧ head (toSnakeCase s) ≠ Some ch_underscore
  ∧ last (toSnakeCase s) ≠ Some ch_underscore
  ∧ toSnakeCase (toSnakeCase s) = toSnakeCase s.
Proof.
  destruct (toSnakeCase_normal s) as (F & ND & HD & LS).
  repeat split; try done. apply toSnakeCase_fixed, toSnakeCase_normal.
Qed.


Lemma is_alnum_not_camel_sep c : is_alnum c = true → is_camel_sep c = false.
Proof. destruct c as [[] [] [] [] [] [] [] []]; vm_compute; congruence. Qed.

Lemma camel_runs_no_sep s :
  Forall (λ c, is_alnum c = true) s → camel_runs false s = s.
Proof.
  induction 1 as [|c s Hc _ IH]; [done|].
  cbn [camel_runs]. rewrite (is_alnum_not_camel_sep c Hc). by rewrite IH.
Qed.

(** X4.  A name of ASCII letters and digits that does not start with an
    upper-case letter is its own camelCase form. *)
Theorem toCamel_fixed (s : str)
    (Halnum : Forall (λ c, is_alnum c = true) s)
    (Hfirst : ∀ c, head s = Some c → is_upper c = false) :
  toCamel s = s.
Proof.
  unfold toCamel. rewrite camel_runs_no_sep by done.
  assert (lower_first s = s) as ->.
  { destruct s as [|c r]; [done|]. cbn. by rewrite (Hfirst c eq_refl). }
  by apply strip_outside_id.
Qed.

Lemma toCamel_fixed_witness :
  Forall (λ c, is_alnum c = true) (lit "myPhoto2")
  ∧ toCamel (lit "myPhoto2") = lit "myPhoto2".
Proof.
  assert (H : Forall (λ c, is_alnum c = true) (lit "myPhoto2"))
    by (repeat constructor).
  split; [exact H|].
  apply (toCamel_fixed (lit "myPhoto2") H). intros c [= <-]. reflexivity.
Defined.

(** ** [convertImageName] *)

(** X5.  Renaming keeps the extension, letter case included: whenever the
    normalized base name is not empty (or the name has no extension, or the
    convention is [any]), the extension of the converted name is the
    extension of the original, so a file the walker lists is still listed
    after its rename. *)
Theorem convertImageName_keeps_extension (f : str) (c : NameCase)
    (H : c = AnyCase ∨ path.extname f = [] ∨ normalized_base f c ≠ []) :
  path.extname (convertImageName f c) = path.extname f
  ∧ (image_name f → image_name (convertImageName f c)).
Proof.
  assert (E : path.extname (convertImageName f c) = path.extname f).
  { destruct c; [| |done].
    - assert (Fk : Forall plain (toKebabCase (path.basename f (Some (path.extname f)))))
        by (apply (norm_result_plain ch_dash);
            [apply toKebabCase_normal | apply norm_char_plain_dash]).
      cbn [convertImageName]. cbn [normalized_base] in H.
      destruct (extname_shape f) as [E | (e & E & Fe)]; rewrite E in *.
      + rewrite app_nil_r. apply extname_no_dot.
        eapply Forall_impl; [exact Fk|]. by intros ? [? _].
      + destruct H as [? | [? | Hne]]; [done..|]. by apply extname_of_joined.
    - assert (Fk : Forall plain (toSnakeCase (path.basename f (Some (path.extname f)))))
        by (apply (norm_result_plain ch_underscore);
            [apply toSnakeCase_normal | apply norm_char_plain_underscore]).
      cbn [convertImageName]. cbn [normalized_base] in H.
      destruct (extname_shape f) as [E | (e & E & Fe)]; rewrite E in *.
      + rewrite app_nil_r. apply extname_no_dot.
        eapply Forall_impl; [exact Fk|]. by intros ? [? _].
      + destruct H as [? | [? | Hne]]; [done..|]. by apply extname_of_joined. }
  split; [exact E|]. unfold image_name. by rewrite E.
Qed.

Lemma convertImageName_keeps_extension_witness :
  normalized_base (lit "Team Logo.JPeG") SnakeCase ≠ []
  ∧ path.extname (convertImageName (lit "Team Logo.JPeG") SnakeCase)
    = path.extname (lit "Team Logo.JPeG")
  ∧ (image_name (lit "Team Logo.JPeG")
     → image_name (convertImageName (lit "Team Logo.JPeG") SnakeCase)).
Proof.
  assert (H : normalized_base (lit "Team Logo.JPeG") SnakeCase ≠ [])
    by (vm_compute; discriminate).
  split; [exact H|].
  apply (convertImageName_keeps_extension (lit "Team Logo.JPeG") SnakeCase).
  right; right. exact H.
Defined.

(** ** Identifiers *)

Lemma toValidIdentifier_fixed s : valid_identifier s → toValidIdentifier s = s.
Proof.
  intros Hv. unfold toValidIdentifier.
  assert (E : map (λ c, if is_ident_char c then c else ch_underscore) s = s).
  { destruct s as [|c r]; [done|]. destruct Hv as [Hc Hr].
    assert (F : Forall (λ d, is_ident_char d = true) (c :: r))
      by (constructor; [by apply is_ident_start_char | done]).
    clear Hc Hr. induction F as [|d l Hd _ IH]; [done|]. cbn. by rewrite Hd, IH. }
  rewrite E. destruct s as [|c r]; [done|]. destruct Hv as [Hc _]. by rewrite Hc.
Qed.

(** X6.  [toValidIdentifier] returns, for every input, a non-empty string
    that matches [/^[a-zA-Z_][a-zA-Z0-9_]*$/], and it leaves its own results
    unchanged. *)
Theorem toValidIdentifier_identifier (s : str) :
  valid_identifier (toValidIdentifier s)
  ∧ toValidIdentifier s ≠ []
  ∧ toValidIdentifier (toValidIdentifier s) = toValidIdentifier s.
Proof.
  pose proof (toValidIdentifier_valid s) as Hv.
  split; [done|]. split; [by apply valid_identifier_nonempty|].
  by apply toValidIdentifier_fixed.
Qed.

(** X7.  For every asset and every set of used names, the generator's
    allocation returns a binding identifier; it is a non-empty identifier
    matching [/^[a-zA-Z_][a-zA-Z0-9_]*$/], it was not in the set, and the set
    afterwards is the old one plus that identifier. *)
Theorem allocate_identifier (relFromImages : str) (used : gset str) :
  ∃ varName, allocate relFromImages used = Some (varName, {[ varName ]} ∪ used)
    ∧ valid_identifier varName ∧ varName ≠ [] ∧ varName ∉ used.
Proof.
  unfold allocate. fold (candidate relFromImages).
  destruct (ensureUnique_spec (candidate relFromImages) used) as (n & Hn & Hfresh & _).
  exists n. split; [done|].
  assert (valid_identifier n)
    by (eapply ensureUnique_valid; [apply candidate_valid | exact Hn]).
  split; [done|]. split; [by apply valid_identifier_nonempty | done].
Qed.

(** ** Directory walker *)

Lemma walk_entry_listed : ∀ (e : dirent) (dir : str),
  Forall (λ p, (∃ d name, p = path.join d name ∧ image_name name)
               ∧ path.basename p None ≠ lit "index.ts")
    (walk_entry dir e).
Proof.
  fix IH 1. intros [name data|name entries|name] dir; cbn [walk_entry].
  - case_bool_decide as Hext; cbn [andb]; [|constructor].
    case_bool_decide as Hidx; cbn [negb]; constructor; [|constructor].
    split; [|done]. by exists dir, name.
  - induction entries as [|e entries IHe]; cbn [flat_map]; [constructor|].
    apply Forall_app. split; [apply IH | exact IHe].
  - constructor.
Qed.

(** X14.  The walker lists image files only: every path [walk] returns is a
    directory path joined with the name of a file whose extension, compared
    without letter case, is one of the image extensions, and none of them is
    the generator's own [index.ts]. *)
Theorem walk_lists_images_only (dir : str) (entries : list dirent) :
  Forall (λ p, (∃ d name, p = path.join d name ∧ image_name name)
               ∧ path.basename p None ≠ lit "index.ts")
    (walk dir entries).
Proof.
  unfold walk. induction entries as [|e entries IH]; cbn [flat_map]; [constructor|].
  apply Forall_app. split; [apply walk_entry_listed | exact IH].
Qed.

(** ** Rename engine: the rename map *)

Lemma map_set_keys m k v :
  NoDup (map fst m) → NoDup (map fst (map_set m k v))
  ∧ ∀ k', k' ∈ map fst (map_set m k v) ↔ k' = k ∨ k' ∈ map fst m.
Proof.
  induction m as [|[k0 v0] m IH]; cbn.
  { intros _. split; [repeat constructor; set_solver|]. intros k'. set_solver. }
  intros Hnd. apply NoDup_cons in Hnd as [Hk0 Hnd]. destruct (IH Hnd) as [IH1 IH2].
  case_bool_decide as E; cbn.
  - subst k0. split; [by apply NoDup_cons|]. intros k'. set_solver.
  - split.
    + apply NoDup_cons. split; [|done]. rewrite IH2. intros [?|?]; congruence.
    + intros k'. rewrite !elem_of_cons, IH2. tauto.
Qed.

Lemma map_set_Forall (P : str * str → Prop) m k v :
  Forall P m → P (k, v) → Forall P (map_set m k v).
Proof.
  intros F Hp. induction F as [|[k0 v0] m H0 F IH]; cbn; [by repeat constructor|].
  case_bool_decide as E; constructor; try done. by subst.
Qed.

(** One iteration leaves the map as it is or records the file just renamed. *)
Lemma rename_step_map nameCase filePath fs m fs' m' :
  rename_step nameCase filePath (fs, m) = Ok (fs', m') →
  m' = m
  ∨ (rename_record nameCase (filePath, path.join (path.dirname filePath)
        (convertImageName (path.basename filePath None) nameCase))
     ∧ m' = map_set m filePath
              (path.join (path.dirname filePath)
                 (convertImageName (path.basename filePath None) nameCase))).
Proof.
  unfold rename_step.
  set (fileName := path.basename filePath None).
  set (convertedName := convertImageName fileName nameCase).
  set (newPath := path.join (path.dirname filePath) convertedName).
  case_bool_decide as Hch; [|intros [= <- <-]; by left].
  destruct (existsSync newPath fs && _); [done|].
  intros H. right. split; [by split|].
  match type of H with (?m ≫= _) = _ => destruct m as [fs2| |] end; cbn in H; [|done..].
  by injection H as <- <-.
Qed.

Lemma rename_loop_records nameCase allFiles : ∀ fs m fs' m' (seen : list str),
  rename_loop nameCase allFiles (fs, m) = Ok (fs', m') →
  NoDup (map fst m) → Forall (rename_record nameCase) m →
  Forall (λ e, e.1 ∈ seen) m →
  NoDup (map fst m') ∧ Forall (rename_record nameCase) m'
  ∧ Forall (λ e, e.1 ∈ seen ++ allFiles) m'.
Proof.
  induction allFiles as [|p rest IH]; intros fs m fs' m' seen H Hnd Hrec Hseen.
  { injection H as <- <-. rewrite app_nil_r. done. }
  cbn [rename_loop] in H.
  destruct (rename_step nameCase p (fs, m)) as [[fs1 m1]| |] eqn:Es; [|done..].
  change (rename_loop nameCase rest (fs1, m1) = Ok (fs', m')) in H.
  assert (Hseen1 : Forall (λ e, e.1 ∈ seen ++ [p]) m).
  { eapply Forall_impl; [exact Hseen|]. intros e He. apply elem_of_app. by left. }
  apply rename_step_map in Es as [-> | [Hr ->]].
  - apply (IH _ _ _ _ (seen ++ [p])) in H; [|done..].
    by rewrite <- app_assoc in H.
  - apply (IH _ _ _ _ (seen ++ [p])) in H.
    + by rewrite <- app_assoc in H.
    + by apply map_set_keys.
    + by apply map_set_Forall.
    + apply map_set_Forall; [done|]. cbn. apply elem_of_app. right.
      by apply list_elem_of_singleton.
Qed.

(** X15.  Whenever the rename engine returns, its rename map lists every
    original path at most once, every original path is one the walk had
    listed, and every entry maps a path whose file name was not normalized to
    the same directory joined with the normalized name. *)
Theorem rename_map_records (dir : str) (entries : list dirent)
    (nameCase : NameCase) (fs' : fs_state) (renameMap : list (str * str))
    (H : renameImagesInDirectory dir entries nameCase = Ok (fs', renameMap)) :
  NoDup (map fst renameMap)
  ∧ Forall (rename_record nameCase) renameMap
  ∧ Forall (λ e, e.1 ∈ walk dir entries) renameMap.
Proof.
  unfold renameImagesInDirectory in H.
  destruct nameCase;
    try (apply (rename_loop_records _ _ _ _ _ _ []) in H;
         [done | constructor | constructor | constructor]).
  injection H as <- <-. repeat split; constructor.
Qed.

Lemma rename_map_records_witness :
  ∃ fs' renameMap,
    renameImagesInDirectory (lit "/app/img")
      [File (lit "Team Logo.png") []; Dir (lit "Flags") [File (lit "FR.svg") []]]
      KebabCase = Ok (fs', renameMap)
    ∧ NoDup (map fst renameMap)
    ∧ Forall (rename_record KebabCase) renameMap
    ∧ Forall (λ e, e.1 ∈ walk (lit "/app/img")
                [File (lit "Team Logo.png") []; Dir (lit "Flags") [File (lit "FR.svg") []]])
        renameMap.
Proof.
  eexists _, _. split; [vm_compute; reflexivity|].
  eapply (rename_map_records (lit "/app/img")
            [File (lit "Team Logo.png") []; Dir (lit "Flags") [File (lit "FR.svg") []]]
            KebabCase).
  vm_compute. reflexivity.
Defined.





(** ** Generation: what is written *)

(** X18.  An empty scan is no error: with no image under either root the
    generator writes a module without declarations whose manifest is the
    empty object, for every configuration. *)
Theorem generateImageIndex_no_images (cfg : gen_config)
    (sizeOf : str → outcome (option N * option N)) :
  generateImageIndex cfg sizeOf [] [] = Written (mkModule [] (JObj [])).
Proof.
  destruct cfg as [pt pd bd ex]. unfold generateImageIndex.
  cbn [projectType publicDir publicDirExists].
  destruct pt, pd as [d|]; try reflexivity;
    destruct (negb (bool_decide (d = []))), ex; reflexivity.
Qed.

Lemma allocate_all_NoDup files used ids used' :
  allocate_all files used = Some (ids, used') →
  map fst ids = files ∧ NoDup (map snd ids) ∧ (∀ v, v ∈ map snd ids → v ∉ used).
Proof.
  intros H. destruct (allocate_all_run files used) as (ids0 & used0 & H0 & Hf & Hrun).
  rewrite H in H0. injection H0 as <- <-.
  destruct (ensureUnique_all_spec (map candidate files) used)
    as (outs & used'' & Hrun' & Hnd & Hfresh & _).
  rewrite Hrun in Hrun'. injection Hrun' as <- <-. done.
Qed.

Lemma filter_no_public (l : list str) :
  List.filter (λ name, bool_decide (name ∈ js_set [])) l = [].
Proof. induction l as [|x l IH]; [done|]. cbn. exact IH. Qed.

(** X19.  In a Vite/React project, whenever a module is written it declares
    exactly one import per listed image: the declarations are, up to order,
    the import declarations of the files with the identifiers allocated in
    listing order, these identifiers are pairwise distinct, and the
    declarations are written in sorted order. *)
Theorem written_declarations (cfg : gen_config)
    (sizeOf : str → outcome (option N * option N))
    (baseFiles publicWalk : list str) (m : generated_module)
    (Hpt : projectType cfg = ViteReact)
    (H : generateImageIndex cfg sizeOf baseFiles publicWalk = Written m) :
  ∃ ids used', allocate_all baseFiles ∅ = Some (ids, used')
    ∧ map fst ids = baseFiles
    ∧ NoDup (map snd ids)
    ∧ declarations m ≡ₚ map import_declaration ids
    ∧ Sorted str_le (declarations m).
Proof.
  unfold generateImageIndex in H. rewrite Hpt in H. cbn [andb] in H.
  rewrite filter_no_public in H.
  destruct (for_each (add_base_file ViteReact) baseFiles (mkGen ∅ [] (JObj [])))
    as [st| |] eqn:Ef; cbn in H; [|done..].
  injection H as <-. cbn [declarations].
  apply for_each_base_allocates in Ef as (ids & Hall & Himp); [|done].
  cbn in Hall, Himp. exists ids, (usedVarNames st). split; [done|].
  destruct (allocate_all_NoDup _ _ _ _ Hall) as (Hf & Hnd & _).
  split; [done|]. split; [done|]. rewrite Himp. split.
  - apply merge_sort_Permutation.
  - apply Sorted_merge_sort. apply _.
Qed.

Lemma written_declarations_witness :
  let cfg := mkConfig ViteReact None (lit "images") false in
  ∃ m,
    generateImageIndex cfg (λ _, Throw (Error [])) [lit "b.png"; lit "a/b.png"; lit "b.jpg"] []
    = Written m
    ∧ ∃ ids used',
        allocate_all [lit "b.png"; lit "a/b.png"; lit "b.jpg"] ∅ = Some (ids, used')
        ∧ map fst ids = [lit "b.png"; lit "a/b.png"; lit "b.jpg"]
        ∧ NoDup (map snd ids)
        ∧ declarations m ≡ₚ map import_declaration ids
        ∧ Sorted str_le (declarations m).
Proof.
  eexists. split; [vm_compute; reflexivity|].
  eapply (written_declarations (mkConfig ViteReact None (lit "images") false)
            (λ _, Throw (Error [])) [lit "b.png"; lit "a/b.png"; lit "b.jpg"] []);
    [reflexivity | vm_compute; reflexivity].
Defined.



(** ** [gen] and the checks of the generator *)

Lemma run_tasks_stopped config env tasks : ∀ ran during g,
  run_tasks config env tasks ran = GenStopped during g →
  during = ImageAssets ∧ g = generateImageIndex_command config env
  ∧ (∀ title, g ≠ GiWarning title) ∧ (∀ m, g ≠ GiDone (Written m))
  ∧ g ≠ GiDone NotModelled.
Proof.
  induction tasks as [|[] tasks IH]; intros ran during g H; cbn [run_tasks] in H.
  - done.
  - destruct (generateImageIndex_command config env) as [title|title|r] eqn:Ec.
    + injection H as <- <-. done.
    + apply IH in H as (_ & Hg & Hw & _). by destruct (Hw _ Hg).
    + destruct r as [dups|e|m|].
      * injection H as <- <-. done.
      * injection H as <- <-. done.
      * apply IH in H as (_ & Hg & _ & Hm & _). by destruct (Hm _ Hg).
      * done.
  - by apply IH in H.
Qed.

(** X21.  [gen] starts the image generator only with a configuration that
    passes the generator's own first checks: when [gen] ends inside the image
    generator, the generator has stopped because the images directory is
    missing or during the generation proper (duplicates, or an error), never
    at [Configuration not found], [Unsupported project type] or the missing
    image configuration. *)
Theorem gen_stops_inside_generation (config : option DKConfig) (env : scan)
    (during : task) (g : gi_outcome)
    (H : gen config env = GenStopped during g) :
  during = ImageAssets
  ∧ g = generateImageIndex_command config env
  ∧ (g = GiExit (lit "Images directory not found")
     ∨ (∃ duplicates, g = GiDone (ExitDuplicates duplicates))
     ∨ (∃ e, g = GiDone (ExitError e))).
Proof.
  assert (Hrun : ∃ tasks, run_tasks config env tasks [] = GenStopped during g).
  { unfold gen in H. destruct config as [c|]; [|done].
    destruct (supported_type (dk_projectType c)); [|done].
    destruct (assets_of c) as [a|]; [|done].
    destruct (_ ++ _) as [|t tasks] eqn:Et; [done|]. eauto. }
  destruct Hrun as [tasks Hrun].
  apply run_tasks_stopped in Hrun as (-> & Hg & Hw & Hm & Hn).
  split; [done|]. split; [done|].
  unfold generateImageIndex_command in Hg.
  destruct config as [c|]; [|by rewrite Hg in H].
  destruct (supported_type (dk_projectType c)) as [pt|] eqn:Et;
    [|unfold gen in H; by rewrite Et in H].
  destruct (assets_of c) as [a|]; [|by destruct (Hw _ Hg)].
  destruct (as_image a) as [img|]; [|by destruct (Hw _ Hg)].
  destruct (negb (baseDirExists env)); [by left|].
  destruct (generateImageIndex _ _ _ _) as [dups|e|m|].
  - right; left. eauto.
  - right; right. eauto.
  - by destruct (Hm _ Hg).
  - by destruct (Hn Hg).
Qed.

Lemma gen_stops_inside_generation_witness :
  let config :=
    Some (mkDKConfig vite_react
            (Some (mkGenerators
               (Some (mkAssetsGenerator (lit "src/assets") None
                        (Some (mkAssetGenerator (lit "images") None None)) None))))) in
  let env := mkScan false false [] [] (λ _, Throw (Error [])) in
  gen config env = GenStopped ImageAssets (GiExit (lit "Images directory not found"))
  ∧ ImageAssets = ImageAssets
  ∧ GiExit (lit "Images directory not found") = generateImageIndex_command config env
  ∧ (GiExit (lit "Images directory not found") = GiExit (lit "Images directory not found")
     ∨ (∃ duplicates, GiExit (lit "Images directory not found")
                      = GiDone (ExitDuplicates duplicates))
     ∨ (∃ e, GiExit (lit "Images directory not found") = GiDone (ExitError e))).
Proof.
  assert (H : gen
    (Some (mkDKConfig vite_react
             (Some (mkGenerators
                (Some (mkAssetsGenerator (lit "src/assets") None
                         (Some (mkAssetGenerator (lit "images") None None)) None))))))
    (mkScan false false [] [] (λ _, Throw (Error [])))
    = GenStopped ImageAssets (GiExit (lit "Images directory not found")))
    by reflexivity.
  split; [exact H|].
  exact (gen_stops_inside_generation _ _ _ _ H).
Defined.

Lemma run_tasks_completed config env tasks : ∀ ran0 ran,
  run_tasks config env tasks ran0 = GenCompleted ran →
  ran = ran0 ++ tasks
  ∧ (ImageAssets ∈ tasks →
     (∃ title, generateImageIndex_command config env = GiWarning title)
     ∨ ∃ m, generateImageIndex_command config env = GiDone (Written m)).
Proof.
  induction tasks as [|[] tasks IH]; intros ran0 ran H; cbn [run_tasks] in H.
  - injection H as <-. rewrite app_nil_r. split; [done|]. by intros ?%elem_of_nil.
  - destruct (generateImageIndex_command config env) as [title|title|r] eqn:Ec.
    + done.
    + apply IH in H as [-> _]. rewrite <- app_assoc. split; [done|]. intros _. left. eauto.
    + destruct r as [dups|e|m|]; try done.
      apply IH in H as [-> _]. rewrite <- app_assoc. split; [done|]. intros _. right. eauto.
  - apply IH in H as [-> Himg]. rewrite <- app_assoc. split; [done|].
    intros Hin. apply Himg. apply elem_of_cons in Hin as [|]; done.
Qed.

(** X22.  [gen] reports completion only for work done: when it ends after all
    tasks, it has run at least one, in the order image then SVG, and if the
    image generator was among them the module has been written. *)
Theorem gen_completed_after_write (config : option DKConfig) (env : scan)
    (ran : list task) (H : gen config env = GenCompleted ran) :
  ran ≠ []
  ∧ (ran = [ImageAssets] ∨ ran = [SvgAssets] ∨ ran = [ImageAssets; SvgAssets])
  ∧ (ImageAssets ∈ ran →
     ∃ m, generateImageIndex_command config env = GiDone (Written m)).
Proof.
  unfold gen in H. destruct config as [c|]; [|done].
  destruct (supported_type (dk_projectType c)) as [pt|] eqn:Et; [|done].
  destruct (assets_of c) as [a|] eqn:Ea; [|done].
  assert (Hshape : ∀ tasks, run_tasks (Some c) env tasks [] = GenCompleted ran →
            tasks ≠ [] →
            (tasks = [ImageAssets] ∨ tasks = [SvgAssets] ∨ tasks = [ImageAssets; SvgAssets]) →
            (ImageAssets ∈ tasks → is_Some (as_image a)) →
            ran ≠ []
            ∧ (ran = [ImageAssets] ∨ ran = [SvgAssets] ∨ ran = [ImageAssets; SvgAssets])
            ∧ (ImageAssets ∈ ran →
               ∃ m, generateImageIndex_command (Some c) env = GiDone (Written m))).
  { intros tasks Hr Hne Hsh Himg.
    apply run_tasks_completed in Hr as [-> Hcmd]. cbn [app].
    split; [done|]. split; [done|]. intros Hin.
    destruct (Hcmd Hin) as [[title Hw] | Hm]; [|done].
    destruct (Himg Hin) as [img Hi].
    unfold generateImageIndex_command in Hw. rewrite Et, Ea, Hi in Hw.
    by destruct (negb (baseDirExists env)). }
  destruct (as_image a) as [img|] eqn:Ei, (as_svg a) as [svg|] eqn:Es; cbn [app] in H.
  - apply (Hshape _ H); [done | by right; right | by eauto].
  - apply (Hshape _ H); [done | by left | by eauto].
  - apply (Hshape _ H); [done | by right; left |].
    intros Hin. apply list_elem_of_singleton in Hin. done.
  - done.
Qed.

Lemma gen_completed_after_write_witness :
  let config :=
    Some (mkDKConfig react_native_cli
            (Some (mkGenerators
               (Some (mkAssetsGenerator (lit "src/assets") None
                        (Some (mkAssetGenerator (lit "images") None None))
                        (Some (mkAssetGenerator (lit "svg") None None))))))) in
  let env := mkScan true false [lit "logo.png"] [] (λ _, Throw (Error [])) in
  gen config env = GenCompleted [ImageAssets; SvgAssets]
  ∧ [ImageAssets; SvgAssets] ≠ []
  ∧ ([ImageAssets; SvgAssets] = [ImageAssets]
     ∨ [ImageAssets; SvgAssets] = [SvgAssets]
     ∨ [ImageAssets; SvgAssets] = [ImageAssets; SvgAssets])
  ∧ (ImageAssets ∈ [ImageAssets; SvgAssets] →
     ∃ m, generateImageIndex_command config env = GiDone (Written m)).
Proof.
  assert (H : gen
    (Some (mkDKConfig react_native_cli
             (Some (mkGenerators
                (Some (mkAssetsGenerator (lit "src/assets") None
                         (Some (mkAssetGenerator (lit "images") None None))
                         (Some (mkAssetGenerator (lit "svg") None None))))))))
    (mkScan true false [lit "logo.png"] [] (λ _, Throw (Error [])))
    = GenCompleted [ImageAssets; SvgAssets])
    by (vm_compute; reflexivity).
  split; [exact H|].
  exact (gen_completed_after_write _ _ _ H).
Defined.

(** ** Manifest tree: insertion and lookup *)

Lemma assign_object node key v t :
  assign node key v = Ok t →
  ∃ props, node = JObj props ∧ key ≠ lit "__proto__"
           ∧ t = JObj (obj_set props key v).
Proof.
  destruct node as [| | |props]; cbn; try done.
  case_bool_decide; [done|]. intros [= <-]. eauto.
Qed.

Lemma setInTree_single node key leaf :
  setInTree node [key] leaf = assign node key (JStr leaf).
Proof. reflexivity. Qed.

Lemma setInTree_lookup_path keys : ∀ node leaf t,
  keys ≠ [] → setInTree node keys leaf = Ok t →
  tree_get t keys = Some (JStr leaf).
Proof.
  induction keys as [|k [|k2 rest] IH]; intros node leaf t Hne H; [done| |].
  - rewrite setInTree_single in H.
    apply assign_object in H as (props & -> & _ & ->).
    cbn [tree_get]. by rewrite obj_get_set_eq.
  - rewrite setInTree_descent_eq in H. destruct node as [| | |props]; try done.
    destruct (obj_get props k) as [child|] eqn:Eg.
    + destruct (setInTree _ (k2 :: rest) leaf) as [child'| |] eqn:Ec; cbn in H; [|done..].
      injection H as <-. apply IH in Ec; [|done].
      change (tree_get (JObj (obj_update props k child')) (k :: k2 :: rest))
        with (match obj_get (obj_update props k child') k with
              | Some c => tree_get c (k2 :: rest) | None => None end).
      rewrite obj_get_update_eq by (by rewrite Eg). exact Ec.
    + destruct (inherited k); [done|].
      destruct (setInTree _ (k2 :: rest) leaf) as [child'| |] eqn:Ec; cbn in H; [|done..].
      injection H as <-. apply IH in Ec; [|done].
      change (tree_get (JObj (obj_set props k child')) (k :: k2 :: rest))
        with (match obj_get (obj_set props k child') k with
              | Some c => tree_get c (k2 :: rest) | None => None end).
      rewrite obj_get_set_eq. exact Ec.
Qed.



Lemma setInTree_first_key node a rest leaf t b :
  a ≠ b → setInTree node (a :: rest) leaf = Ok t →
  ∃ props props', node = JObj props ∧ t = JObj props'
    ∧ obj_get props' b = obj_get props b.
Proof.
  intros Hab H. destruct rest as [|k2 rest].
  - rewrite setInTree_single in H.
    apply assign_object in H as (props & -> & _ & ->).
    eexists _, _. split; [done|]. split; [done|]. by apply obj_get_set_ne.
  - rewrite setInTree_descent_eq in H. destruct node as [| | |props]; try done.
    destruct (obj_get props a) as [child|].
    + destruct (setInTree _ (k2 :: rest) leaf) as [child'| |]; cbn in H; [|done..].
      injection H as <-. eexists _, _. split; [done|]. split; [done|].
      by apply obj_get_update_ne.
    + destruct (inherited a); [done|].
      destruct (setInTree _ (k2 :: rest) leaf) as [child'| |]; cbn in H; [|done..].
      injection H as <-. eexists _, _. split; [done|]. split; [done|].
      by apply obj_get_set_ne.
Qed.

Lemma tree_get_falsy child q :
  truthy child = false → q ≠ [] → tree_get child q = None.
Proof. destruct q as [|k q]; [done|]. by destruct child. Qed.

Lemma tree_get_empty_object q : q ≠ [] → tree_get (JObj []) q = None.
Proof. by destruct q. Qed.

Lemma setInTree_diverging common : ∀ a b p' q' node leaf t,
  a ≠ b → setInTree node (common ++ a :: p') leaf = Ok t →
  tree_get t (common ++ b :: q') = tree_get node (common ++ b :: q').
Proof.
  induction common as [|c common IH]; intros a b p' q' node leaf t Hab H.
  - cbn [app] in *.
    destruct (setInTree_first_key _ _ _ _ _ b Hab H) as (props & props' & -> & -> & E).
    cbn [tree_get]. by rewrite E.
  - cbn [app] in *.
    assert (Hq : common ++ b :: q' ≠ []) by (by destruct common).
    destruct (common ++ a :: p') as [|k2 rest] eqn:Ep; [by destruct common|].
    rewrite setInTree_descent_eq in H. destruct node as [| | |props]; try done.
    destruct (obj_get props c) as [child|] eqn:Eg.
    + destruct (setInTree _ (k2 :: rest) leaf) as [child'| |] eqn:Ec; cbn in H; [|done..].
      injection H as <-. rewrite <- Ep in Ec. apply (IH a b p' q') in Ec; [|done].
      cbn [tree_get]. rewrite obj_get_update_eq by (by rewrite Eg). rewrite Eg, Ec.
      destruct (truthy child) eqn:Et; [done|].
      by rewrite tree_get_empty_object, tree_get_falsy.
    + destruct (inherited c); [done|].
      destruct (setInTree _ (k2 :: rest) leaf) as [child'| |] eqn:Ec; cbn in H; [|done..].
      injection H as <-. rewrite <- Ep in Ec. apply (IH a b p' q') in Ec; [|done].
      cbn [tree_get]. rewrite obj_get_set_eq, Eg, Ec.
      by apply tree_get_empty_object.
Qed.

(** X9.  An insertion leaves the rest of the tree alone: what the tree holds
    at a key path that parts ways with the inserted one is the same before
    and after [setInTree]. *)
Theorem setInTree_keeps_other_paths (node t : jsval) (p q : list str)
    (leafValue : str) (Hdiv : paths_diverge p q)
    (H : setInTree node p leafValue = Ok t) :
  tree_get t q = tree_get node q.
Proof.
  destruct Hdiv as (common & a & b & p' & q' & Hab & -> & ->).
  by eapply setInTree_diverging.
Qed.

Lemma setInTree_keeps_other_paths_witness :
  let tree := JObj [(lit "icons", JObj [(lit "a", JStr (lit "icons_a"))])] in
  ∃ t, setInTree tree [lit "icons"; lit "b"] (lit "icons_b") = Ok t
       ∧ tree_get t [lit "icons"; lit "a"] = tree_get tree [lit "icons"; lit "a"].
Proof.
  eexists. split; [reflexivity|].
  apply (setInTree_keeps_other_paths _ _ [lit "icons"; lit "b"]
           [lit "icons"; lit "a"] (lit "icons_b")); [|reflexivity].
  exists [lit "icons"], (lit "b"), (lit "a"), [], [].
  split; [discriminate|]. split; reflexivity.
Defined.



Lemma inherited_proto k : inherited k = false → k ≠ lit "__proto__".
Proof. intros H ->. vm_compute in H. discriminate. Qed.

Lemma setInTree_fresh keys : ∀ props leaf,
  keys ≠ [] → Forall (λ k, inherited k = false) keys →
  (∀ k, head keys = Some k → obj_get props k = None) →
  ∃ t, setInTree (JObj props) keys leaf = Ok t.
Proof.
  induction keys as [|k [|k2 rest] IH]; intros props leaf Hne F Hfresh; [done| |].
  - rewrite setInTree_single. cbn [assign].
    inversion F as [|? ? Hk _]; subst.
    rewrite bool_decide_eq_false_2 by (by apply inherited_proto). eauto.
  - inversion F as [|? ? Hk Frest]; subst.
    rewrite setInTree_descent_eq, (Hfresh k eq_refl), Hk.
    destruct (IH [] leaf) as [child Hc]; [done | done | done |].
    rewrite Hc. cbn. eauto.
Qed.

(** X11.  A new branch never fails: inserting at a key path whose first key
    the object does not hold yet returns a tree, provided none of the keys is
    a name ordinary objects inherit from [Object.prototype]. *)
Theorem setInTree_new_branch (props : list (str * jsval)) (first : str)
    (rest : list str) (leafValue : str)
    (Hnames : Forall (λ k, inherited k = false) (first :: rest))
    (Hnew : obj_get props first = None) :
  ∃ t, setInTree (JObj props) (first :: rest) leafValue = Ok t
       ∧ tree_get t (first :: rest) = Some (JStr leafValue).
Proof.
  destruct (setInTree_fresh (first :: rest) props leafValue) as [t Ht];
    [done | done | by intros k [= <-] |].
  exists t. split; [done|]. by eapply setInTree_lookup_path.
Qed.

Lemma setInTree_new_branch_witness :
  ∃ t, setInTree (JObj [(lit "logo", JStr (lit "logo"))])
         [lit "icons"; lit "flags"; lit "fr"] (lit "icons_flags_fr") = Ok t
       ∧ tree_get t [lit "icons"; lit "flags"; lit "fr"]
         = Some (JStr (lit "icons_flags_fr")).
Proof.
  apply (setInTree_new_branch [(lit "logo", JStr (lit "logo"))] (lit "icons")
           [lit "flags"; lit "fr"] (lit "icons_flags_fr")).
  - repeat constructor.
  - reflexivity.
Defined.

(** ** The sorting pass: order and content *)

(** X12.  On a tree none of whose keys is an array index, the sorting pass
    returns a tree every mapping of which, at every depth, lists its keys in
    lexicographic order. *)
Theorem sortObjectKeysDeep_orders_keys (v : jsval)
    (H : every_mapping no_index_key v) :
  every_mapping keys_sorted (sortObjectKeysDeep v).
Proof. by apply sortObjectKeysDeep_sorted. Qed.

Lemma sortObjectKeysDeep_orders_keys_witness :
  let tree :=
    JObj [(lit "logo", JStr (lit "logo"));
          (lit "icons", JObj [(lit "b", JStr (lit "icons_b"));
                              (lit "a", JStr (lit "icons_a"))]);
          (lit "banner", JStr (lit "banner"))] in
  every_mapping no_index_key tree
  ∧ every_mapping keys_sorted (sortObjectKeysDeep tree).
Proof.
  assert (H : every_mapping no_index_key
    (JObj [(lit "logo", JStr (lit "logo"));
           (lit "icons", JObj [(lit "b", JStr (lit "icons_b"));
                               (lit "a", JStr (lit "icons_a"))]);
           (lit "banner", JStr (lit "banner"))])).
  { cbn. unfold no_index_key. cbn. repeat split; repeat constructor. }
  split; [exact H|]. exact (sortObjectKeysDeep_orders_keys _ H).
Defined.

Lemma obj_get_values props k :
  obj_get (map (λ kv, match kv with (k, v) => (k, sortObjectKeysDeep v) end) props) k
  = sortObjectKeysDeep <$> obj_get props k.
Proof.
  induction props as [|[k0 v0] props IH]; [done|]. cbn.
  by case_bool_decide.
Qed.

Lemma obj_get_None_keys props k : k ∉ obj_keys props → obj_get props k = None.
Proof.
  induction props as [|[k0 v0] props IH]; [done|]. cbn. intros Hk.
  apply not_elem_of_cons in Hk as [Hne Hk].
  rewrite bool_decide_eq_false_2 by done. by apply IH.
Qed.

Lemma obj_get_Some_keys props k v : obj_get props k = Some v → k ∈ obj_keys props.
Proof.
  intros H. apply obj_get_Some_key in H.
  unfold obj_keys. apply list_elem_of_fmap. by exists (k, v).
Qed.

(** The loop of the sorting pass, read at one key. *)
Lemma sort_loop_get values k keys : ∀ sorted,
  k ≠ lit "__proto__" →
  obj_get
    (fold_left
       (λ sorted key,
          match obj_get values key with
          | Some v =>
              if bool_decide (key = lit "__proto__") then sorted
              else obj_set sorted key v
          | None => sorted
          end) keys sorted) k
  = match (if bool_decide (k ∈ keys) then obj_get values k else None) with
    | Some v => Some v
    | None => obj_get sorted k
    end.
Proof.
  induction keys as [|key keys IH]; intros sorted Hk; cbn [fold_left].
  { by rewrite bool_decide_eq_false_2 by apply not_elem_of_nil. }
  rewrite IH by done. destruct (decide (key = k)) as [->|Hne].
  - rewrite (bool_decide_eq_true_2 (k ∈ k :: keys)) by (apply elem_of_cons; by left).
    destruct (obj_get values k) as [v|] eqn:Ev.
    + rewrite (bool_decide_eq_false_2 (k = lit "__proto__")) by done.
      rewrite obj_get_set_eq. by destruct (bool_decide (k ∈ keys)).
    + by destruct (bool_decide (k ∈ keys)).
  - assert (Hiff : k ∈ key :: keys ↔ k ∈ keys).
    { rewrite elem_of_cons. naive_solver. }
    rewrite (bool_decide_ext _ _ Hiff).
    destruct (if bool_decide (k ∈ keys) then obj_get values k else None); [done|].
    destruct (obj_get values key) as [v|]; [|done].
    case_bool_decide; [done|]. by apply obj_get_set_ne.
Qed.

Lemma sortObjectKeysDeep_get props k :
  k ≠ lit "__proto__" →
  ∃ props', sortObjectKeysDeep (JObj props) = JObj props'
    ∧ obj_get props' k = sortObjectKeysDeep <$> obj_get props k.
Proof.
  intros Hk. eexists. split; [reflexivity|].
  rewrite sort_loop_get by done. rewrite obj_get_values.
  case_bool_decide as Hin.
  - by destruct (obj_get props k).
  - cbn. rewrite obj_get_None_keys; [done|].
    intros Hin'. apply Hin. unfold js_sort.
    by rewrite (merge_sort_Permutation str_le).
Qed.

Lemma sortObjectKeysDeep_lookup keys : ∀ v,
  Forall (λ k, k ≠ lit "__proto__") keys →
  tree_get (sortObjectKeysDeep v) keys = sortObjectKeysDeep <$> tree_get v keys.
Proof.
  induction keys as [|k keys IH]; intros v F; [done|].
  inversion F as [|? ? Hk Fk]; subst.
  destruct v as [| | |props]; try done.
  destruct (sortObjectKeysDeep_get props k Hk) as (props' & -> & Hget).
  cbn [tree_get]. rewrite Hget.
  destruct (obj_get props k) as [child|]; [|done]. cbn. by apply IH.
Qed.

(** X13.  The sorting pass reorders and loses nothing: at every key path
    (free of the accessor name [__proto__]) the sorted tree holds the sorted
    form of what the tree held there; in particular every leaf is found
    unchanged at its path. *)
Theorem sortObjectKeysDeep_keeps_entries (v : jsval) (keys : list str)
    (H : Forall (λ k, k ≠ lit "__proto__") keys) :
  tree_get (sortObjectKeysDeep v) keys = sortObjectKeysDeep <$> tree_get v keys
  ∧ ∀ leaf, tree_get v keys = Some (JStr leaf) →
            tree_get (sortObjectKeysDeep v) keys = Some (JStr leaf).
Proof.
  pose proof (sortObjectKeysDeep_lookup keys v H) as E.
  split; [exact E|]. intros leaf Hl. by rewrite E, Hl.
Qed.

Lemma sortObjectKeysDeep_keeps_entries_witness :
  let tree :=
    JObj [(lit "z", JStr (lit "z")); (lit "10", JObj [(lit "b", JStr (lit "_10_b"))]);
          (lit "9", JStr (lit "_9"))] in
  Forall (λ k, k ≠ lit "__proto__") [lit "10"; lit "b"]
  ∧ tree_get (sortObjectKeysDeep tree) [lit "10"; lit "b"]
    = sortObjectKeysDeep <$> tree_get tree [lit "10"; lit "b"]
  ∧ ∀ leaf, tree_get tree [lit "10"; lit "b"] = Some (JStr leaf) →
            tree_get (sortObjectKeysDeep tree) [lit "10"; lit "b"] = Some (JStr leaf).
Proof.
  assert (H : Forall (λ k, k ≠ lit "__proto__") [lit "10"; lit "b"])
    by (repeat constructor; discriminate).
  split; [exact H|].
  exact (sortObjectKeysDeep_keeps_entries _ _ H).
Defined.

(** ** From the listing to the manifest *)








